(** * Import-map resolution engine (package [importmap]): a shallow embedding

    The Go package keeps three tables (imports, scopes, integrity) next to a
    declaring location [mapUrl] and an optional root location [rootUrl], and
    resolves module specifiers against them.  This file embeds

    - the byte-string helpers of Go's [strings] package that the code calls,
    - the parts of Go's standard [net/url] and [path] packages that the code
      calls ([Parse], [ParseRequestURI], [String], [ResolveReference],
      [JoinPath], [Port]),
    - the URL primitives of the package ([resolve], [rebase], [sameOrigin],
      [isPlain]) and
    - the engine itself ([getMapMatch], [getScopeMatches],
      [ResolveWithParent], [Rebase], [Extend], [GetIntegrityValue]),

    and then states and proves the properties of the engine.

    Go strings are byte strings: they are modelled as [string] (a list of
    [ascii], one per byte), [len] is [String.length].  A Go function that
    returns [(T, error)] returns a [result T]; a run-time panic (index or
    slice bound out of range, assignment to an entry of a [nil] map) is a
    third outcome of its own. *)

From Stdlib Require Import Ascii String NArith Sorting.Sorted.
From stdpp Require Import base option list strings gmap fin_maps sorting.

Local Open Scope string_scope.

(** ** Outcomes of a Go call *)

(** Errors that [net/url] reports while parsing. *)
Inductive url_error : Type :=
  | InvalidControlCharacter
  | EmptyUrl
  | MissingProtocolScheme
  | InvalidURIForRequest
  | FirstSegmentColon
  | EscapeError (s : string)
  | InvalidHostError (s : string)
  | MissingBracket
  | InvalidPort (s : string)
  | InvalidUserinfo.

(** The [error] values of the package, one constructor per place that makes
    one. *)
Inductive error : Type :=
  | UrlError (op : string) (input : string) (e : url_error)
  | MapUrlIsNil                      (* "invalid argument: mapUrl is nil" *)
  | BaseUrlIsNil                     (* "baseUrl is nil; it must be set" *)
  | IntegrityNotFound                (* "integrity not found" *)
  | UnableToResolve (specifier parent : string).
                                     (* "unable to resolve %s in %s" *)

Inductive panic : Type :=
  | IndexOutOfRange
  | SliceBoundsOutOfRange
  | NilPointerDereference
  | AssignmentToNilMap.              (* "assignment to entry in nil map" *)

Inductive result (A : Type) : Type :=
  | Ok (a : A)
  | Err (e : error)
  | Panic (p : panic).
Arguments Ok {A} a.
Arguments Err {A} e.
Arguments Panic {A} p.

#[global] Instance result_ret : MRet result := fun A a => Ok a.
#[global] Instance result_bind : MBind result := fun A B f r =>
  match r with
  | Ok a => f a
  | Err e => Err e
  | Panic p => Panic p
  end.

#[global] Instance url_error_eq_dec : EqDecision url_error.
Proof. solve_decision. Defined.
#[global] Instance error_eq_dec : EqDecision error.
Proof. solve_decision. Defined.
#[global] Instance panic_eq_dec : EqDecision panic.
Proof. solve_decision. Defined.
#[global] Instance result_eq_dec {A} `{EqDecision A} : EqDecision (result A).
Proof. solve_decision. Defined.

Definition is_Ok {A} (r : result A) : Prop := exists a, r = Ok a.

(** ** Byte strings: what the code uses of Go's [strings] package *)

Module strings.

Definition len (s : string) : nat := String.length s.

Fixpoint HasPrefix (s prefix : string) {struct prefix} : bool :=
  match prefix, s with
  | EmptyString, _ => true
  | String p prefix', String c s' => if decide (c = p) then HasPrefix s' prefix' else false
  | String _ _, EmptyString => false
  end.

(** [s[n:]] when [n <= len s] (the caller checks the bound). *)
Fixpoint from (n : nat) (s : string) : string :=
  match n, s with
  | O, _ => s
  | S n', String _ s' => from n' s'
  | S _, EmptyString => EmptyString
  end.

(** [s[:n]] when [n <= len s]. *)
Fixpoint upto (n : nat) (s : string) : string :=
  match n, s with
  | O, _ => EmptyString
  | S n', String c s' => String c (upto n' s')
  | S _, EmptyString => EmptyString
  end.

Definition HasSuffix (s suffix : string) : bool :=
  bool_decide (len suffix <= len s) &&
  bool_decide (from (len s - len suffix) s = suffix).

(** [strings.Index]: the first position where [sep] starts, if any. *)
Fixpoint Index (s sep : string) : option nat :=
  if HasPrefix s sep then Some 0
  else match s with
       | EmptyString => None
       | String _ s' => S <$> Index s' sep
       end.

(** [strings.LastIndex]: the last position where [sep] starts, if any. *)
Fixpoint LastIndex (s sep : string) : option nat :=
  match s with
  | EmptyString => if HasPrefix s sep then Some 0 else None
  | String _ s' =>
      match LastIndex s' sep with
      | Some i => Some (S i)
      | None => if HasPrefix s sep then Some 0 else None
      end
  end.

Definition Contains (s sep : string) : bool := bool_decide (is_Some (Index s sep)).

(** [strings.Cut]: [(before, after, found)]. *)
Definition Cut (s sep : string) : string * string * bool :=
  match Index s sep with
  | Some i => (upto i s, from (i + len sep) s, true)
  | None => (s, EmptyString, false)
  end.

(** [strings.Count] for a separator of one byte. *)
Fixpoint CountByte (s : string) (c : ascii) : nat :=
  match s with
  | EmptyString => 0
  | String d s' => (if decide (d = c) then 1 else 0) + CountByte s' c
  end.

(** The Go expression [s[i]]. *)
Definition at_index (s : string) (i : nat) : result ascii :=
  match String.get i s with
  | Some c => Ok c
  | None => Panic IndexOutOfRange
  end.

(** The Go expression [s[n:]]. *)
Definition slice_from (s : string) (n : nat) : result string :=
  if decide (n <= len s) then Ok (from n s) else Panic SliceBoundsOutOfRange.

Definition ToLowerByte (c : ascii) : ascii :=
  let n := N_of_ascii c in
  if ((65 <=? n) && (n <=? 90))%N then ascii_of_N (n + 32) else c.

Fixpoint ToLower (s : string) : string :=
  match s with
  | EmptyString => EmptyString
  | String c s' => String (ToLowerByte c) (ToLower s')
  end.

Fixpoint all_bytes (P : ascii -> bool) (s : string) : bool :=
  match s with
  | EmptyString => true
  | String c s' => P c && all_bytes P s'
  end.

End strings.


(** ** Go's [path] package: [Clean] and [Join] *)

Module path.

(** The segments of [s] between slashes ([strings.Split(s, "/")]). *)
Fixpoint segments_aux (s acc : string) : list string :=
  match s with
  | EmptyString => [acc]
  | String c s' =>
      if decide (c = "/"%char) then acc :: segments_aux s' EmptyString
      else segments_aux s' (acc +:+ String c EmptyString)
  end.
Definition segments (s : string) : list string := segments_aux s EmptyString.

Fixpoint join_slash (l : list string) : string :=
  match l with
  | [] => EmptyString
  | [x] => x
  | x :: l' => x +:+ "/" +:+ join_slash l'
  end.

(** One element of the path read by [Clean].  [out] holds the elements
    written so far, last first; [dotdot] counts the leading [..] elements of
    a path that is not rooted, which no later [..] may remove. *)
Definition clean_step (rooted : bool) (st : list string * nat) (elem : string)
  : list string * nat :=
  let '(out, dotdot) := st in
  if decide (elem = "") then st
  else if decide (elem = ".") then st
  else if decide (elem = "..") then
    if decide (dotdot < length out) then (tail out, dotdot)
    else if rooted then st
    else (".." :: out, S dotdot)
  else (elem :: out, dotdot).

Definition Clean (p : string) : string :=
  if decide (p = "") then "."
  else
    let rooted := strings.HasPrefix p "/" in
    let '(out, _) := foldl (clean_step rooted) ([], 0) (segments p) in
    let body := join_slash (rev out) in
    if rooted then "/" +:+ body
    else if decide (body = "") then "." else body.

Definition Join (elem : list string) : string :=
  let nonempty := filter (fun e => e <> "") elem in
  match nonempty with
  | [] => ""
  | _ => Clean (join_slash nonempty)
  end.

End path.


(** ** Go's [net/url] package *)

Module url.

#[global] Instance sum_ret : MRet (sum url_error) := fun A a => inr a.
#[global] Instance sum_bind : MBind (sum url_error) := fun A B f r =>
  match r with
  | inl e => inl e
  | inr a => f a
  end.

Record Userinfo : Type := mkUserinfo {
  username : string;
  password : string;
  passwordSet : bool
}.

Record URL : Type := mkURL {
  Scheme : string;
  Opaque : string;
  User : option Userinfo;
  Host : string;
  Path : string;
  RawPath : string;
  OmitHost : bool;
  ForceQuery : bool;
  RawQuery : string;
  Fragment : string;
  RawFragment : string
}.

#[global] Instance Userinfo_eq_dec : EqDecision Userinfo.
Proof. solve_decision. Defined.
#[global] Instance URL_eq_dec : EqDecision URL.
Proof. solve_decision. Defined.

(** The zero value [url.URL{}]. *)
Definition empty : URL := mkURL "" "" None "" "" "" false false "" "" "".

Definition with_path (u : URL) (p rp : string) : URL :=
  mkURL (Scheme u) (Opaque u) (User u) (Host u) p rp
        (OmitHost u) (ForceQuery u) (RawQuery u) (Fragment u) (RawFragment u).

Definition with_fragment (u : URL) (f rf : string) : URL :=
  mkURL (Scheme u) (Opaque u) (User u) (Host u) (Path u) (RawPath u)
        (OmitHost u) (ForceQuery u) (RawQuery u) f rf.

Inductive encoding : Type :=
  | encodePath
  | encodePathSegment
  | encodeHost
  | encodeZone
  | encodeUserPassword
  | encodeQueryComponent
  | encodeFragment.

#[global] Instance encoding_eq_dec : EqDecision encoding.
Proof. solve_decision. Defined.

Definition byte_in (c : ascii) (s : string) : bool :=
  negb (strings.all_bytes (fun d => negb (bool_decide (d = c))) s).

Definition between (lo hi c : ascii) : bool :=
  ((N_of_ascii lo <=? N_of_ascii c) && (N_of_ascii c <=? N_of_ascii hi))%N.

Definition isalpha (c : ascii) : bool := between "a" "z" c || between "A" "Z" c.
Definition isdigit (c : ascii) : bool := between "0" "9" c.

Definition ishex (c : ascii) : bool :=
  isdigit c || between "a" "f" c || between "A" "F" c.

Definition unhex (c : ascii) : N :=
  let n := N_of_ascii c in
  if isdigit c then (n - 48)%N
  else if between "a" "f" c then (n - 97 + 10)%N
  else if between "A" "F" c then (n - 65 + 10)%N
  else 0%N.

Definition upperhex (n : N) : ascii :=
  if (n <? 10)%N then ascii_of_N (48 + n) else ascii_of_N (65 + (n - 10)).

(** [shouldEscape(c, mode)]. *)
Definition shouldEscape (c : ascii) (mode : encoding) : bool :=
  if isalpha c || isdigit c then false
  else if bool_decide (mode = encodeHost \/ mode = encodeZone)
          && (byte_in c "!$&'()*+,;=:[]<>" || bool_decide (c = "034"%char)) then false
  else if byte_in c "-_.~" then false
  else if byte_in c "$&+,/:;=?@" then
    match mode with
    | encodePath => bool_decide (c = "?"%char)
    | encodePathSegment => byte_in c "/;,?"
    | encodeUserPassword => byte_in c "@/?:"
    | encodeQueryComponent => true
    | encodeFragment => false
    | encodeHost | encodeZone => true
    end
  else if bool_decide (mode = encodeFragment) && byte_in c "!()*" then false
  else true.

Definition unhex2 (a b : ascii) : ascii :=
  ascii_of_N (N.lor (N.shiftl (unhex a) 4) (unhex b)).

(** [unescape(s, mode)]: the first pass of the Go function finds the first
    malformed escape or forbidden host byte, the second decodes; one pass
    over the string does both. *)
Fixpoint unescape (s : string) (mode : encoding) : url_error + string :=
  match s with
  | EmptyString => inr EmptyString
  | String c s' =>
      if decide (c = "%"%char) then
        match s' with
        | String a (String b s'') =>
            if ishex a && ishex b then
              let esc := String c (String a (String b EmptyString)) in
              if bool_decide (mode = encodeHost) && (unhex a <? 8)%N
                 && negb (bool_decide (esc = "%25")) then inl (EscapeError esc)
              else if bool_decide (mode = encodeZone)
                      && negb (bool_decide (esc = "%25"))
                      && negb (bool_decide (unhex2 a b = " "%char))
                      && shouldEscape (unhex2 a b) encodeHost then inl (EscapeError esc)
              else t ← unescape s'' mode; inr (String (unhex2 a b) t)
            else inl (EscapeError (strings.upto 3 s))
        | _ => inl (EscapeError (strings.upto 3 s))
        end
      else if decide (c = "+"%char) then
        t ← unescape s' mode;
        inr (String (if decide (mode = encodeQueryComponent) then " "%char else c) t)
      else if bool_decide (mode = encodeHost \/ mode = encodeZone)
              && (N_of_ascii c <? 128)%N && shouldEscape c encodeHost
      then inl (InvalidHostError (String c EmptyString))
      else t ← unescape s' mode; inr (String c t)
  end.

(** [escape(s, mode)]. *)
Fixpoint escape (s : string) (mode : encoding) : string :=
  match s with
  | EmptyString => EmptyString
  | String c s' =>
      if shouldEscape c mode then
        if bool_decide (c = " "%char) && bool_decide (mode = encodeQueryComponent)
        then String "+" (escape s' mode)
        else String "%" (String (upperhex (N.shiftr (N_of_ascii c) 4))
                        (String (upperhex (N.land (N_of_ascii c) 15)) (escape s' mode)))
      else String c (escape s' mode)
  end.

(** [validEncoded(s, mode)]. *)
Definition validEncoded (s : string) (mode : encoding) : bool :=
  strings.all_bytes
    (fun c => byte_in c "!$&'()*+,;=:@[]%" || negb (shouldEscape c mode)) s.

Definition stringContainsCTLByte (s : string) : bool :=
  negb (strings.all_bytes
          (fun c => negb ((N_of_ascii c <? 32)%N || bool_decide (N_of_ascii c = 127%N))) s).

(** [getScheme(rawURL)]: [(scheme, rest)]. *)
Fixpoint getScheme_from (rest : string) (i : nat) (rawURL : string)
  : url_error + (string * string) :=
  match rest with
  | EmptyString => inr ("", rawURL)
  | String c rest' =>
      if isalpha c then getScheme_from rest' (S i) rawURL
      else if isdigit c || byte_in c "+-." then
        if decide (i = 0) then inr ("", rawURL) else getScheme_from rest' (S i) rawURL
      else if decide (c = ":"%char) then
        if decide (i = 0) then inl MissingProtocolScheme
        else inr (strings.upto i rawURL, strings.from (S i) rawURL)
      else inr ("", rawURL)
  end.
Definition getScheme (rawURL : string) : url_error + (string * string) :=
  getScheme_from rawURL 0 rawURL.

Definition validOptionalPort (port : string) : bool :=
  match port with
  | EmptyString => true
  | String c digits => bool_decide (c = ":"%char) && strings.all_bytes isdigit digits
  end.

Definition validUserinfo (s : string) : bool :=
  strings.all_bytes (fun c => isalpha c || isdigit c || byte_in c "-._:~!$&'()*+,;=%@") s.

(** [parseHost(host)]. *)
Definition parseHost (host : string) : url_error + string :=
  let plain := unescape host encodeHost in
  if strings.HasPrefix host "[" then
    match strings.LastIndex host "]" with
    | None => inl MissingBracket
    | Some i =>
        let colonPort := strings.from (S i) host in
        if negb (validOptionalPort colonPort) then inl (InvalidPort colonPort)
        else
          match strings.Index (strings.upto i host) "%25" with
          | Some zone =>
              host1 ← unescape (strings.upto zone host) encodeHost;
              host2 ← unescape (strings.from zone (strings.upto i host)) encodeZone;
              host3 ← unescape (strings.from i host) encodeHost;
              inr (host1 +:+ host2 +:+ host3)
          | None => plain
          end
    end
  else
    match strings.LastIndex host ":" with
    | Some i =>
        let colonPort := strings.from i host in
        if negb (validOptionalPort colonPort) then inl (InvalidPort colonPort)
        else plain
    | None => plain
    end.

(** [parseAuthority(authority)]: [(user, host)]. *)
Definition parseAuthority (authority : string) : url_error + (option Userinfo * string) :=
  match strings.LastIndex authority "@" with
  | None => host ← parseHost authority; inr (None, host)
  | Some i =>
      host ← parseHost (strings.from (S i) authority);
      let userinfo := strings.upto i authority in
      if negb (validUserinfo userinfo) then inl InvalidUserinfo
      else if negb (strings.Contains userinfo ":") then
        name ← unescape userinfo encodeUserPassword;
        inr (Some (mkUserinfo name "" false), host)
      else
        let '(name, pass, _) := strings.Cut userinfo ":" in
        name' ← unescape name encodeUserPassword;
        pass' ← unescape pass encodeUserPassword;
        inr (Some (mkUserinfo name' pass' true), host)
  end.

(** [u.setPath(p)]: the URL with [Path] and [RawPath] set. *)
Definition setPath (u : URL) (p : string) : url_error + URL :=
  path ← unescape p encodePath;
  inr (with_path u path (if decide (p = escape path encodePath) then "" else p)).

(** [u.setFragment(f)]. *)
Definition setFragment (u : URL) (f : string) : url_error + URL :=
  frag ← unescape f encodeFragment;
  inr (with_fragment u frag (if decide (f = escape frag encodeFragment) then "" else f)).

(** [parse(rawURL, viaRequest)]. *)
Definition parse (rawURL : string) (viaRequest : bool) : url_error + URL :=
  if stringContainsCTLByte rawURL then inl InvalidControlCharacter
  else if bool_decide (rawURL = "") && viaRequest then inl EmptyUrl
  else if decide (rawURL = "*") then inr (with_path empty "*" "")
  else
    '(scheme, rest) ← getScheme rawURL;
    let scheme := strings.ToLower scheme in
    let '(rest, forceQuery, rawQuery) :=
      if strings.HasSuffix rest "?" && bool_decide (strings.CountByte rest "?" = 1)
      then (strings.upto (strings.len rest - 1) rest, true, "")
      else let '(before, after, _) := strings.Cut rest "?" in (before, false, after) in
    let u := mkURL scheme "" None "" "" "" false forceQuery rawQuery "" "" in
    if negb (strings.HasPrefix rest "/") && negb (bool_decide (scheme = "")) then
      (* rootless paths are opaque *)
      inr (mkURL scheme rest None "" "" "" false forceQuery rawQuery "" "")
    else if negb (strings.HasPrefix rest "/") && viaRequest then inl InvalidURIForRequest
    else if negb (strings.HasPrefix rest "/")
            && strings.Contains (strings.Cut rest "/").1.1 ":" then inl FirstSegmentColon
    else if (negb (bool_decide (scheme = ""))
             || negb viaRequest && negb (strings.HasPrefix rest "///"))
            && strings.HasPrefix rest "//" then
      let authority := strings.from 2 rest in
      let '(authority, rest) :=
        match strings.Index authority "/" with
        | Some i => (strings.upto i authority, strings.from i authority)
        | None => (authority, "")
        end in
      '(user, host) ← parseAuthority authority;
      setPath (mkURL scheme "" user host "" "" false forceQuery rawQuery "" "") rest
    else if negb (bool_decide (scheme = "")) && strings.HasPrefix rest "/" then
      setPath (mkURL scheme "" None "" "" "" true forceQuery rawQuery "" "") rest
    else setPath u rest.

(** [url.Parse(rawURL)]. *)
Definition Parse (rawURL : string) : result URL :=
  let '(u, frag, _) := strings.Cut rawURL "#" in
  match parse u false with
  | inl e => Err (UrlError "parse" u e)
  | inr url =>
      if decide (frag = "") then Ok url
      else match setFragment url frag with
           | inl e => Err (UrlError "parse" rawURL e)
           | inr url' => Ok url'
           end
  end.

(** [url.ParseRequestURI(rawURL)]. *)
Definition ParseRequestURI (rawURL : string) : result URL :=
  match parse rawURL true with
  | inl e => Err (UrlError "parse" rawURL e)
  | inr url => Ok url
  end.

(** [u.EscapedPath()]. *)
Definition EscapedPath (u : URL) : string :=
  if negb (bool_decide (RawPath u = "")) && validEncoded (RawPath u) encodePath
     && bool_decide (unescape (RawPath u) encodePath = inr (Path u))
  then RawPath u
  else if decide (Path u = "*") then "*"
  else escape (Path u) encodePath.

(** [u.EscapedFragment()]. *)
Definition EscapedFragment (u : URL) : string :=
  if negb (bool_decide (RawFragment u = "")) && validEncoded (RawFragment u) encodeFragment
     && bool_decide (unescape (RawFragment u) encodeFragment = inr (Fragment u))
  then RawFragment u
  else escape (Fragment u) encodeFragment.

Definition Userinfo_String (ui : Userinfo) : string :=
  escape (username ui) encodeUserPassword
  +:+ (if passwordSet ui then ":" +:+ escape (password ui) encodeUserPassword else "").

(** [u.String()]: the pieces are appended to the buffer in this order.
    (Named [String_] because [String] is the constructor of [string].) *)
Definition String_ (u : URL) : string :=
  let scheme := if decide (Scheme u = "") then "" else Scheme u +:+ ":" in
  let body :=
    if negb (bool_decide (Opaque u = "")) then scheme +:+ Opaque u
    else
      let authority :=
        if negb (bool_decide (Scheme u = "")) || negb (bool_decide (Host u = ""))
           || bool_decide (is_Some (User u)) then
          if OmitHost u && bool_decide (Host u = "") && bool_decide (User u = None) then ""
          else
            (if negb (bool_decide (Host u = "")) || negb (bool_decide (Path u = ""))
                || bool_decide (is_Some (User u)) then "//" else "")
            +:+ match User u with
                | Some ui => Userinfo_String ui +:+ "@"
                | None => ""
                end
            +:+ (if decide (Host u = "") then "" else escape (Host u) encodeHost)
        else "" in
      let buf := scheme +:+ authority in
      let path := EscapedPath u in
      let buf :=
        if negb (bool_decide (path = "")) && negb (strings.HasPrefix path "/")
           && negb (bool_decide (Host u = "")) then buf +:+ "/" else buf in
      let buf :=
        if bool_decide (buf = "") && strings.Contains (strings.Cut path "/").1.1 ":"
        then buf +:+ "./" else buf in
      buf +:+ path in
  body
  +:+ (if ForceQuery u || negb (bool_decide (RawQuery u = "")) then "?" +:+ RawQuery u else "")
  +:+ (if decide (Fragment u = "") then "" else "#" +:+ EscapedFragment u).

(** One round of the loop of [resolvePath] over the elements of the path:
    [dst] is the builder, [first] the flag of the Go loop. *)
Definition resolvePath_step (st : string * bool) (elem : string) : string * bool :=
  let '(dst, first) := st in
  if decide (elem = ".") then (dst, false)
  else if decide (elem = "..") then
    let str := strings.from 1 dst in
    match strings.LastIndex str "/" with
    | None => ("/", true)
    | Some index => ("/" +:+ strings.upto index str, first)
    end
  else ((if first then dst else dst +:+ "/") +:+ elem, false).

(** [resolvePath(base, ref)]. *)
Definition resolvePath (base ref : string) : string :=
  let full :=
    if decide (ref = "") then base
    else if negb (strings.HasPrefix ref "/") then
      match strings.LastIndex base "/" with
      | Some i => strings.upto (S i) base +:+ ref
      | None => ref
      end
    else ref in
  if decide (full = "") then ""
  else
    let elems := path.segments full in
    let '(dst, _) := foldl resolvePath_step ("/", true) elems in
    let last_elem := List.last elems "" in
    let dst :=
      if bool_decide (last_elem = ".") || bool_decide (last_elem = "..")
      then dst +:+ "/" else dst in
    if strings.HasPrefix (strings.from 1 dst) "/" then strings.from 1 dst else dst.

(** [url.setPath(p)] with the error ignored, as [ResolveReference] and
    [JoinPath] call it: on an error the URL is left as it was. *)
Definition setPath_ignore (u : URL) (p : string) : URL :=
  match setPath u p with
  | inr u' => u'
  | inl _ => u
  end.

(** [u.ResolveReference(ref)]. *)
Definition ResolveReference (u ref : URL) : URL :=
  let scheme := if decide (Scheme ref = "") then Scheme u else Scheme ref in
  let url := mkURL scheme (Opaque ref) (User ref) (Host ref) (Path ref) (RawPath ref)
                   (OmitHost ref) (ForceQuery ref) (RawQuery ref)
                   (Fragment ref) (RawFragment ref) in
  if negb (bool_decide (Scheme ref = "")) || negb (bool_decide (Host ref = ""))
     || bool_decide (is_Some (User ref)) then
    setPath_ignore url (resolvePath (EscapedPath ref) "")
  else if negb (bool_decide (Opaque ref = "")) then
    mkURL scheme (Opaque ref) None "" "" (RawPath ref)
          (OmitHost ref) (ForceQuery ref) (RawQuery ref) (Fragment ref) (RawFragment ref)
  else
    let inherit := bool_decide (Path ref = "") && negb (ForceQuery ref)
                   && bool_decide (RawQuery ref = "") in
    let rawQuery := if inherit then RawQuery u else RawQuery ref in
    let '(fragment, rawFragment) :=
      if inherit && bool_decide (Fragment ref = "")
      then (Fragment u, RawFragment u) else (Fragment ref, RawFragment ref) in
    if bool_decide (Path ref = "") && negb (bool_decide (Opaque u = "")) then
      mkURL scheme (Opaque u) None "" "" (RawPath ref)
            (OmitHost ref) (ForceQuery ref) rawQuery fragment rawFragment
    else
      setPath_ignore
        (mkURL scheme (Opaque ref) (User u) (Host u) (Path ref) (RawPath ref)
               (OmitHost ref) (ForceQuery ref) rawQuery fragment rawFragment)
        (resolvePath (EscapedPath u) (EscapedPath ref)).

(** [u.JoinPath(elem...)]. *)
Definition URL_JoinPath (u : URL) (elem : list string) : URL :=
  let first := EscapedPath u in
  let rooted := strings.HasPrefix first "/" in
  let elem := (if rooted then first else "/" +:+ first) :: elem in
  let p := if rooted then path.Join elem else strings.from 1 (path.Join elem) in
  let p :=
    if strings.HasSuffix (List.last elem "") "/" && negb (strings.HasSuffix p "/")
    then p +:+ "/" else p in
  setPath_ignore u p.

(** [url.JoinPath(base, elem...)]. *)
Definition JoinPath (base : string) (elem : list string) : result string :=
  u ← Parse base; Ok (String_ (URL_JoinPath u elem)).

(** [u.Port()]: the port of [splitHostPort(u.Host)]. *)
Definition Port (u : URL) : string :=
  match strings.LastIndex (Host u) ":" with
  | Some colon =>
      if validOptionalPort (strings.from colon (Host u))
      then strings.from (S colon) (Host u) else ""
  | None => ""
  end.

End url.

(** ** URL primitives of the package *)

Import url.

(** [resolve(inputUrl, mapUrl, rootUrl)]: a [nil] URL pointer is [None]. *)
Definition resolve (inputUrl : string) (mapUrl rootUrl : option URL) : result string :=
  if strings.HasPrefix inputUrl "/" then
    match rootUrl with
    | Some root =>
        c ← strings.at_index inputUrl 1;
        tempUrl ← (if decide (c = "/"%char) then strings.slice_from inputUrl 1
                   else Ok inputUrl);
        JoinPath (String_ root) ["."; tempUrl]
    | None => Ok inputUrl
    end
  else
    u ← Parse inputUrl;
    match mapUrl with
    | Some m => Ok (String_ (ResolveReference m u))
    | None => Ok (String_ u)
    end.

(** [sameOrigin(inputUrl, baseUrl)], both pointers not [nil]. *)
Definition sameOrigin (inputUrl baseUrl : URL) : bool :=
  bool_decide (Scheme inputUrl = Scheme baseUrl)
  && bool_decide (Host inputUrl = Host baseUrl)
  && bool_decide (Port inputUrl = Port baseUrl).

(** [rebase(inputUrl, baseUrl, rootUrl)]. *)
Definition rebase (inputUrl : string) (baseUrl rootUrl : option URL) : result string :=
  match baseUrl with
  | None => Err BaseUrlIsNil
  | Some base =>
      u ← Parse inputUrl;
      let finish (resolved : URL) : result string :=
        let to_base :=
          if sameOrigin resolved base then Ok (String_ (ResolveReference base resolved))
          else Ok (String_ resolved) in
        match rootUrl with
        | Some root =>
            if strings.HasPrefix (String_ resolved) (String_ root) then
              (* resolved.String()[len(rootUrl.String())-1:] *)
              if decide (strings.len (String_ root) = 0) then Panic SliceBoundsOutOfRange
              else strings.slice_from (String_ resolved) (strings.len (String_ root) - 1)
            else if strings.HasPrefix (String_ root) (String_ resolved) then
              Ok ("/" +:+ String_ (ResolveReference root resolved))
            else to_base
        | None => to_base
        end in
      if strings.HasPrefix inputUrl "/" || strings.HasPrefix inputUrl "//" then
        match rootUrl with
        | None => Ok inputUrl
        | Some root => finish (ResolveReference root u)
        end
      else finish (ResolveReference base u)
  end.

Definition isUrl (inputUrl : string) : bool :=
  match ParseRequestURI inputUrl with
  | Ok _ => true
  | _ => false
  end.

Definition isRelative (specifier : string) : bool :=
  strings.HasPrefix specifier "./" || strings.HasPrefix specifier "../"
  || strings.HasPrefix specifier "/".

Definition isPlain (specifier : string) : bool :=
  negb (isRelative specifier) && negb (isUrl specifier).

(** ** The import map *)

Abbreviation Scope := (gmap string string) (only parsing).
Abbreviation Scopes := (gmap string (gmap string string)) (only parsing).
Abbreviation Imports := (gmap string string) (only parsing).
Abbreviation Integrity := (gmap string string) (only parsing).

(** A value of a Go map type is [nil] or an allocated table.  A [nil] map
    reads, ranges and deletes like an empty table; an assignment to one of
    its entries panics. *)
Inductive gomap (V : Type) : Type :=
  | nil_map
  | made (m : gmap string V).
Arguments nil_map {V}.
Arguments made {V} m.

(** What reading [t] finds. *)
Definition entries {V} (t : gomap V) : gmap string V :=
  match t with
  | nil_map => ∅
  | made m => m
  end.

Definition is_nil {V} (t : gomap V) : bool :=
  match t with
  | nil_map => true
  | made _ => false
  end.

(** [t[k] = v]. *)
Definition assign {V} (t : gomap V) (k : string) (v : V) : result (gomap V) :=
  match t with
  | nil_map => Panic AssignmentToNilMap
  | made m => Ok (made (<[k := v]> m))
  end.

(** The map [t] after a loop [for k, v := range t] that has written into
    it in place and left the entries [m]: the same allocated map with these
    entries, and still [nil] if it was [nil] (the loop had no entry to
    visit). *)
Definition in_place {V} (t : gomap V) (m : gmap string V) : gomap V :=
  match t with
  | nil_map => nil_map
  | made _ => made m
  end.

(** The loop [for k, v := range theirs { ours[k] = v }], up to the way in
    which an entry of [theirs] is merged into [ours]: on an allocated table
    the entries of [theirs] are written over those of [ours]; on a [nil]
    table the first assignment panics, and there is one as soon as
    [theirs] has an entry. *)
Definition copy_over {V} (merge : gmap string V -> gmap string V -> gmap string V)
    (theirs : gmap string V) (ours : gomap V) : result (gomap V) :=
  match ours with
  | made m => Ok (made (merge theirs m))
  | nil_map => if decide (size theirs = 0) then Ok nil_map else Panic AssignmentToNilMap
  end.

(** The receiver [*importMap]: the fields [imports], [scopes] and
    [integrity] hold Go maps, each of which may be [nil] (as [New] leaves
    the tables that [Data] does not give).  The value stored under a scope
    key is an allocated table. *)
Record importMap : Type := ImportMap {
  imports_ : gomap string;
  scopes_ : gomap (gmap string string);
  integrity_ : gomap string;
  mapUrl : option URL;
  rootUrl : option URL
}.

(** What the code reads in the three fields. *)
Definition imports (i : importMap) : Imports := entries (imports_ i).
Definition scopes (i : importMap) : Scopes := entries (scopes_ i).
Definition integrity (i : importMap) : Integrity := entries (integrity_ i).
Arguments imports !i /.
Arguments scopes !i /.
Arguments integrity !i /.

(** A receiver all of whose tables are allocated, given by their
    entries. *)
Abbreviation mkImportMap imports scopes integrity mapUrl rootUrl :=
  (ImportMap (made imports) (made scopes) (made integrity) mapUrl rootUrl).

(** Go does not specify the order in which [range] visits the entries of a
    map.  The engine is parametric in it: [range_order m] lists the keys of
    [m] in the order in which a loop over [m] is going to reach them.  (One
    order per table: two loops over equal tables meet the keys in the same
    order.  No property below compares two loops.) *)
Class RangeOrder : Type := range_order : forall V, gmap string V -> list string.
Arguments range_order {_ _} m.

(** The keys of [m], each once, in some order. *)
Definition enumerates {V} (order : list string) (m : gmap string V) : Prop :=
  NoDup order /\ forall k, k ∈ order <-> is_Some (m !! k).

(** A run time with [range_order] visits every entry exactly once. *)
Definition RangeOrderOk (R : RangeOrder) : Prop :=
  forall V (m : gmap string V), enumerates (range_order m) m.

(** The order used to run the engine on concrete tables. *)
Definition key_order : RangeOrder := fun V m => (map_to_list m).*1.

Record scopeMatchTuple : Type := mkTuple { First : string; Second : string }.

Section Engine.
Context {R : RangeOrder}.

(** A [for k, v := range tbl] loop whose body may insert into and delete
    from the map it ranges over.  The keys are taken in the order fixed at
    the entry of the loop; an entry deleted before the loop reaches it is
    not produced, and the value is read when the entry is reached.  (Go
    leaves open whether an entry inserted by the body is produced; here it
    is not.  The properties below that follow a loop of [Rebase] through
    its rounds are about tables into which the body inserts no key.) *)
Fixpoint range_keys {V} (body : string -> V -> gmap string V -> result (gmap string V))
    (keys : list string) (tbl : gmap string V) : result (gmap string V) :=
  match keys with
  | [] => Ok tbl
  | k :: keys' =>
      match tbl !! k with
      | Some v => tbl' ← body k v tbl; range_keys body keys' tbl'
      | None => range_keys body keys' tbl
      end
  end.

Definition range_mut {V} (body : string -> V -> gmap string V -> result (gmap string V))
    (tbl : gmap string V) : result (gmap string V) :=
  range_keys body (range_order tbl) tbl.

(** [getMapMatch(specifier, inputMap)]; [curMatch] is the accumulator of
    the loop. *)
Definition getMapMatch_step (specifier : string) (curMatch match_ : string) : string :=
  let wildcard := strings.HasSuffix match_ "*" in
  if negb (strings.HasSuffix match_ "/") && negb wildcard then curMatch
  else if strings.HasPrefix specifier (strings.upto (strings.len match_ - 1) match_) then
    if bool_decide (curMatch = "") || bool_decide (strings.len curMatch < strings.len match_)
    then match_ else curMatch
  else curMatch.

Definition getMapMatch {T} (specifier : string) (inputMap : gmap string T) : string :=
  match inputMap !! specifier with
  | Some _ => specifier
  | None => foldl (getMapMatch_step specifier) "" (range_order inputMap)
  end.

(** The first loop of [getScopeMatches]: every scope with its resolved
    location, or the first error. *)
Fixpoint scopeCandidates (keys : list string) (mapUrl rootUrl : option URL)
  : result (list scopeMatchTuple) :=
  match keys with
  | [] => Ok []
  | scope :: keys' =>
      scopeUrl ← resolve scope mapUrl rootUrl;
      rest ← scopeCandidates keys' mapUrl rootUrl;
      Ok (mkTuple scope scopeUrl :: rest)
  end.

(** The order that [sort.Slice] establishes with the package's [less]:
    [less(j, i)] is false whenever [i] comes before [j]. *)
Definition by_length (a b : scopeMatchTuple) : Prop :=
  strings.len (Second a) <= strings.len (Second b).

#[global] Instance by_length_dec : RelDecision by_length.
Proof. intros a b. unfold by_length. apply _. Defined.

Definition scopeMatches_keep (parentUrl : string) (candidate : scopeMatchTuple) : bool :=
  let scopeUrl := Second candidate in
  bool_decide (scopeUrl = parentUrl)
  || strings.HasSuffix scopeUrl "/" && strings.HasPrefix parentUrl scopeUrl.

(** [getScopeMatches(parentUrl, scopes, mapUrl, rootUrl)].  [sort.Slice] is
    a merge sort here; the Go sort is not stable, and nothing below depends
    on how candidates of equal length are ordered. *)
Definition getScopeMatches (parentUrl : string) (scopes : Scopes)
    (mapUrl rootUrl : option URL) : result (list scopeMatchTuple) :=
  candidates ← scopeCandidates (range_order scopes) mapUrl rootUrl;
  Ok (filter (fun c => scopeMatches_keep parentUrl c = true) (merge_sort by_length candidates)).

(** The map match with its two retries, as [ResolveWithParent] runs it on
    a scope's table and then once more on the top-level imports:
    [(specifier, mapMatch)] after the block.  [nonPlain] is
    [specifierUrl != nil]. *)
Definition matchWithRetries (i : importMap) (nonPlain : bool) (specifier : string)
    (tbl : gmap string string) : result (string * string) :=
  let mapMatch := getMapMatch specifier tbl in
  if bool_decide (mapMatch = "") && nonPlain then
    specifier ← rebase specifier (mapUrl i) (rootUrl i);
    let mapMatch := getMapMatch specifier tbl in
    if bool_decide (mapMatch = "") && bool_decide (is_Some (rootUrl i)) then
      specifier ← rebase specifier (mapUrl i) None;
      Ok (specifier, getMapMatch specifier tbl)
    else Ok (specifier, mapMatch)
  else Ok (specifier, mapMatch).

(** [resolve(target+specifier[len(mapMatch):], i.mapUrl, i.rootUrl)] with
    [target := tbl[mapMatch]]. *)
Definition resolveMatch (i : importMap) (tbl : gmap string string)
    (specifier mapMatch : string) : result string :=
  let target := default "" (tbl !! mapMatch) in
  suffix ← strings.slice_from specifier (strings.len mapMatch);
  resolve (target +:+ suffix) (mapUrl i) (rootUrl i).

(** The loop over the scope matches: a resolved location ([inl]) as soon
    as a table matches, else the specifier as the retries left it
    ([inr]). *)
Fixpoint scopeLoop (i : importMap) (nonPlain : bool) (scopeMatches : list scopeMatchTuple)
    (specifier : string) : result (string + string) :=
  match scopeMatches with
  | [] => Ok (inr specifier)
  | scopeMatch :: rest =>
      let tbl := default ∅ (scopes i !! First scopeMatch) in
      '(specifier, mapMatch) ← matchWithRetries i nonPlain specifier tbl;
      if negb (bool_decide (mapMatch = "")) then
        r ← resolveMatch i tbl specifier mapMatch; Ok (inl r)
      else scopeLoop i nonPlain rest specifier
  end.

(** [i.ResolveWithParent(specifier, parentUrl)]. *)
Definition ResolveWithParent (i : importMap) (specifier : string)
    (parentUrl : option URL) : result string :=
  match parentUrl with
  | None => Panic NilPointerDereference
  | Some parent =>
      parentUrlRaw ← resolve (String_ parent) (mapUrl i) (rootUrl i);
      '(specifierUrl, specifier) ←
        (if negb (isPlain specifier) then
           u ← Parse specifier;
           let specifierUrl := ResolveReference parent u in
           Ok (Some specifierUrl, String_ specifierUrl)
         else Ok (None, specifier));
      let nonPlain := bool_decide (is_Some specifierUrl) in
      scopeMatches ← getScopeMatches parentUrlRaw (scopes i) (mapUrl i) (rootUrl i);
      found ← scopeLoop i nonPlain scopeMatches specifier;
      match found with
      | inl resolved => Ok resolved
      | inr specifier =>
          '(specifier, mapMatch) ← matchWithRetries i nonPlain specifier (imports i);
          if negb (bool_decide (mapMatch = "")) then
            resolveMatch i (imports i) specifier mapMatch
          else
            match specifierUrl with
            | Some su => Ok (String_ su)
            | None => Err (UnableToResolve specifier (String_ parent))
            end
      end
  end.

(** [i.Resolve(specifier)]. *)
Definition Resolve (i : importMap) (specifier : string) : result string :=
  ResolveWithParent i specifier (mapUrl i).

(** [i.GetIntegrityValue(target, _)]. *)
Definition GetIntegrityValue (i : importMap) (target : string) : result string :=
  targetRebased ← rebase target (mapUrl i) (rootUrl i);
  match integrity i !! targetRebased with
  | Some v => Ok v
  | None =>
      key ← strings.slice_from targetRebased 2;
      match integrity i !! key with
      | Some v => Ok v
      | None => Err IntegrityNotFound
      end
  end.

(** [i.Set(name, target)]: the receiver after the call. *)
Definition Set_ (i : importMap) (name target : string) : result importMap :=
  imports' ← assign (imports_ i) name target;
  Ok (ImportMap imports' (scopes_ i) (integrity_ i) (mapUrl i) (rootUrl i)).

(** [i.SetWithParent(name, target, parent)]: the receiver after the call.
    [i.scopes[parent] == nil] holds when [parent] is not a key; the second
    assignment writes into the table stored under [parent], which is
    allocated by then, and so is [i.scopes]. *)
Definition SetWithParent (i : importMap) (name target parent : string) : result importMap :=
  scopes' ← match scopes i !! parent with
            | None => assign (scopes_ i) parent ∅
            | Some _ => Ok (scopes_ i)
            end;
  let scope := default ∅ (entries scopes' !! parent) in
  let tbl := <[parent := <[name := target]> scope]> (entries scopes') in
  Ok (ImportMap (imports_ i) (in_place scopes' tbl) (integrity_ i) (mapUrl i) (rootUrl i)).

(** [i.SetIntegrityValue(target, integrity)]: the receiver after a call
    that returns [nil].  The assignment comes first and panics on a [nil]
    table.  Here the slice [targetRebased[2:]] is guarded by the test for a
    leading [./]. *)
Definition SetIntegrityValue (i : importMap) (target value : string) : result importMap :=
  integrity' ← assign (integrity_ i) target value;
  let tbl := entries integrity' in
  targetRebased ← rebase target (mapUrl i) (rootUrl i);
  let tbl := if decide (targetRebased <> target) then delete targetRebased tbl else tbl in
  let tbl :=
    if strings.HasPrefix targetRebased "./"
       && negb (bool_decide (target = strings.from 2 targetRebased))
       && bool_decide (is_Some (tbl !! strings.from 2 targetRebased))
    then delete targetRebased tbl else tbl in
  Ok (ImportMap (imports_ i) (scopes_ i) (in_place integrity' tbl) (mapUrl i) (rootUrl i)).

(** The body of the loops of [Rebase] over the top-level imports and over
    the imports of one scope: the two loops are the same text up to the
    name of the table.  [i] carries the old pair, [mapUrl'] and [rootUrl']
    are the new one. *)
Definition rebaseImport (i : importMap) (mapUrl' rootUrl' : option URL)
    (importKey target : string) (tbl : gmap string string) : result (gmap string string) :=
  resolvedTarget ← resolve target (mapUrl i) (rootUrl i);
  rebased ← rebase resolvedTarget (mapUrl i) (rootUrl i);
  let tbl := <[importKey := rebased]> tbl in
  if negb (isPlain importKey) then
    resolvedImportKey ← resolve importKey (mapUrl i) (rootUrl i);
    newImport ← rebase resolvedImportKey mapUrl' rootUrl';
    if decide (newImport <> importKey)
    then Ok (delete importKey (<[newImport := default "" (tbl !! importKey)]> tbl))
    else Ok tbl
  else Ok tbl.

(** The body of the loop over the scopes.  [scopeImports] is the very map
    stored under [scopeKey], so what the inner loop writes is in
    [i.scopes[scopeKey]] whether or not [changedScopeImportProps] is set. *)
Definition rebaseScope (i : importMap) (mapUrl' rootUrl' : option URL)
    (scopeKey : string) (scopeImports : gmap string string)
    (tbl : gmap string (gmap string string)) : result (gmap string (gmap string string)) :=
  scopeImports ← range_mut (rebaseImport i mapUrl' rootUrl') scopeImports;
  let tbl := <[scopeKey := scopeImports]> tbl in
  resolvedScopeKey ← resolve scopeKey (mapUrl i) (rootUrl i);
  newScope ← rebase resolvedScopeKey mapUrl' rootUrl';
  if decide (newScope <> scopeKey)
  then Ok (delete scopeKey (<[newScope := scopeImports]> tbl))
  else Ok tbl.

(** The body of the loop over the integrity table. *)
Definition rebaseIntegrity (i : importMap)
    (integrityKey integrityValue : string) (tbl : gmap string string)
  : result (gmap string string) :=
  resolvedIntegrityValue ← resolve integrityValue (mapUrl i) (rootUrl i);
  rebased ← rebase resolvedIntegrityValue (mapUrl i) (rootUrl i);
  let tbl := <[integrityKey := rebased]> tbl in
  if decide (integrityKey <> integrityValue)
  then Ok (delete integrityValue (<[integrityKey := default "" (tbl !! integrityValue)]> tbl))
  else Ok tbl.

(** The root that [Rebase] uses when the caller passes [nil]. *)
Definition inferRoot (i : importMap) (mapUrl' : URL) (rootUrl' : option URL) : option URL :=
  match rootUrl', mapUrl i with
  | None, Some old =>
      if decide (String_ mapUrl' = String_ old) then mapUrl i
      else if bool_decide (rootUrl i = None)
              || negb (bool_decide (Scheme mapUrl' = "https"))
                 && negb (bool_decide (Scheme mapUrl' = "http"))
      then None
      else Some (ResolveReference mapUrl' (with_path empty "/" ""))
  | _, _ => rootUrl'
  end.

(** [i.Rebase(mapUrl, rootUrl)]: the receiver after the call.  The three
    loops write into the tables they range over.  When the Go method
    returns an error the receiver is left half rewritten; that state is not
    returned here. *)
Definition Rebase (i : importMap) (mapUrl' rootUrl' : option URL) : result importMap :=
  match mapUrl' with
  | None => Err MapUrlIsNil
  | Some newMap =>
      let rootUrl' := inferRoot i newMap rootUrl' in
      imports' ← range_mut (rebaseImport i mapUrl' rootUrl') (imports i);
      scopes' ← range_mut (rebaseScope i mapUrl' rootUrl') (scopes i);
      integrity' ← range_mut (rebaseIntegrity i) (integrity i);
      Ok (ImportMap (in_place (imports_ i) imports') (in_place (scopes_ i) scopes')
                    (in_place (integrity_ i) integrity') mapUrl' rootUrl')
  end.

(** [i.Extend(importMap, overrideScopes)]: the receiver after the call.
    Every assignment [i.imports[k] = v] of the three copying loops writes a
    key of the other map over the receiver's, which is the left-biased
    union; without [overrideScopes] a scope of the other map is copied
    entry by entry into the receiver's scope of that key.  A [nil] table of
    the other map has no entry to copy. *)
Definition Extend (i other : importMap) (overrideScopes : bool) : result importMap :=
  imports' ← copy_over (∪) (imports other) (imports_ i);
  scopes' ←
    copy_over (if overrideScopes then (∪)
               else union_with (fun theirs ours => Some (theirs ∪ ours)))
              (scopes other) (scopes_ i);
  integrity' ← copy_over (∪) (integrity other) (integrity_ i);
  let i' := ImportMap imports' scopes' integrity' (mapUrl i) (rootUrl i) in
  Rebase i' (mapUrl i') None.

End Engine.

(** [New(WithMap(data), WithMapUrl(mapUrl), WithRootUrl(rootUrl))]; the
    first three arguments are the fields of [data], [nil_map] for one that
    is left out; [cwd] is what [os.Getwd] returns. *)
Definition New (imports : gomap string) (scopes : gomap (gmap string string))
    (integrity : gomap string)
    (mapUrl rootUrl : option URL) (cwd : string) : result importMap :=
  mapUrl ← match mapUrl with
           | Some m => Ok m
           | None => Parse ("file://" +:+ cwd +:+ "/")
           end;
  let rootUrl :=
    match rootUrl with
    | None =>
        if bool_decide (Scheme mapUrl = "http") || bool_decide (Scheme mapUrl = "https")
        then Some (ResolveReference mapUrl (with_path empty "/" ""))
        else None
    | Some _ => rootUrl
    end in
  Ok (ImportMap imports scopes integrity (Some mapUrl) rootUrl).

(** * Vocabulary of the properties *)

(** The URL that [url.Parse] returns for [s], the zero URL if it fails. *)
Definition parsed (s : string) : URL :=
  match Parse s with
  | Ok u => u
  | _ => empty
  end.

(** A prefix key for the candidate [c]: it ends in [/] or [*], and what is
    left of it without that last byte is a string-prefix of [c]. *)
Definition prefixKey (c k : string) : bool :=
  (strings.HasSuffix k "/" || strings.HasSuffix k "*")
  && strings.HasPrefix c (strings.upto (strings.len k - 1) k).

(** The working specifier after the classification: a plain specifier as
    it is, any other resolved against the parent location. *)
Definition absoluteForm (parent : URL) (specifier : string) : result string :=
  if isPlain specifier then Ok specifier
  else u ← Parse specifier; Ok (String_ (ResolveReference parent u)).

(** The tables that a resolution consults: those of the matching scopes
    and the top-level imports. *)
Definition tried (i : importMap) (ms : list scopeMatchTuple) (tbl : gmap string string) : Prop :=
  tbl = imports i \/ exists m, m ∈ ms /\ tbl = default ∅ (scopes i !! First m).

(** What an observer sees of a map: the entries of the three tables and
    the two locations. *)
Definition observe (i : importMap) :=
  (map_to_list (imports i), map_to_list (map_to_list <$> scopes i),
   map_to_list (integrity i), String_ <$> mapUrl i, String_ <$> rootUrl i).

(** The map of [TestResolveImportMap]. *)
Definition test_map : result importMap :=
  New (made {[ "test" := "/test-map.js"; "https://another.com/url.js" := "/url-map.js" ]})
      (made {[ "https://another.com/" := {[ "/url.js" := "/scoped-map.js" ]} ]})
      nil_map (Some (parsed "https://site.com")) None "/home/user/project".

(** The map of [TestResolveImportMap] as [New] builds it. *)
Definition test_map_value : importMap :=
  ImportMap
    (made {[ "test" := "/test-map.js"; "https://another.com/url.js" := "/url-map.js" ]})
    (made {[ "https://another.com/" := {[ "/url.js" := "/scoped-map.js" ]} ]})
    nil_map (Some (parsed "https://site.com")) (Some (parsed "https://site.com/")).

(** A map declared at [https://a.com/] (root [https://a.com/], as [New]
    derives it) that maps [x] to a location on another site and records
    one integrity value. *)
Definition map_at_a : result importMap :=
  New (made {[ "x" := "https://b.com/x.js" ]}) (made ∅) (made {[ "/a.js" := "sha384-abc" ]})
      (Some (parsed "https://a.com/")) None "".

Definition sample_table : gmap string string :=
  {[ "a/" := "/x/"; "a/b/" := "/y/"; "lib" := "/lib.js" ]}.

Definition sample_scopes : Scopes :=
  {[ "https://another.com/" := {[ "/url.js" := "/scoped-map.js" ]};
     "https://another.com/lib/" := {[ "/url.js" := "/lib-map.js" ]};
     "https://third.com/" := {[ "/url.js" := "/third-map.js" ]} ]}.

(** The errors that the URL primitives hand on. *)
Definition fromUrl (e : error) : Prop :=
  e = BaseUrlIsNil \/ exists op input ue, e = UrlError op input ue.

(** The canonical form of a stored value under the pair of the map. *)
Definition canonical (i : importMap) (t : string) : result string :=
  r ← resolve t (mapUrl i) (rootUrl i); rebase r (mapUrl i) (rootUrl i).

(** A map declared at [https://site.com/] with that root. *)
Definition site_map (imports : Imports) (scopes : Scopes) (integrity : Integrity) : importMap :=
  mkImportMap imports scopes integrity
              (Some (parsed "https://site.com/")) (Some (parsed "https://site.com/")).

(** Two nested scopes that both map [lib], over top-level imports that map
    it too and hold the prefix key [pkg/]. *)
Definition nested_map : importMap :=
  site_map {[ "lib" := "/top.js"; "pkg/" := "/pkg/" ]}
           {[ "https://another.com/" := {[ "lib" := "/short.js" ]};
              "https://another.com/lib/" := {[ "lib" := "/long.js" ]} ]}
           ∅.

(** [map_at_a] as [New] builds it. *)
Definition a_map : importMap :=
  mkImportMap {[ "x" := "https://b.com/x.js" ]} ∅ {[ "/a.js" := "sha384-abc" ]}
              (Some (parsed "https://a.com/")) (Some (parsed "https://a.com/")).

(** [a_map] after [Rebase(https://b.com/, nil)]. *)
Definition a_map_at_b : importMap :=
  mkImportMap {[ "x" := "https://b.com/x.js" ]} ∅ {[ "/a.js" := "" ]}
              (Some (parsed "https://b.com/")) (Some (parsed "https://b.com/")).

(** A map of the working directory, as [New] builds it: no root. *)
Definition file_map : importMap :=
  mkImportMap ∅ ∅ ∅ (Some (parsed "file:///home/user/project/")) None.

(** * Properties *)

(** ** The byte-string helpers mean what their names say *)

Lemma HasPrefix_spec (s p : string) :
  strings.HasPrefix s p = true <-> exists t, s = p +:+ t.
Proof.
  revert s; induction p as [|a p IH]; intros s; simpl.
  - split; [intros _; by exists s | done].
  - destruct s as [|c s].
    + split; [done | intros [t Ht]; discriminate].
    + destruct (decide (c = a)) as [->|Hne].
      * rewrite IH. split; intros [t Ht]; exists t; simpl in *;
          [by rewrite Ht | by injection Ht].
      * split; [done | intros [t Ht]; simpl in Ht; by injection Ht].
Qed.

Lemma from_app (s t : string) : strings.from (strings.len s) (s +:+ t) = t.
Proof. induction s as [|c s IH]; simpl; [by destruct t | done]. Qed.

Lemma len_app (s t : string) : strings.len (s +:+ t) = strings.len s + strings.len t.
Proof. induction s as [|c s IH]; simpl; [done | unfold strings.len in *; simpl; lia]. Qed.

Lemma upto_from (n : nat) (s : string) : strings.upto n s +:+ strings.from n s = s.
Proof.
  revert s; induction n as [|n IH]; intros s; simpl; [done|].
  destruct s as [|c s]; simpl; [done|].
  change (String c (strings.upto n s +:+ strings.from n s) = String c s).
  by rewrite IH.
Qed.

Lemma HasSuffix_spec (s x : string) :
  strings.HasSuffix s x = true <-> exists t, s = t +:+ x.
Proof.
  unfold strings.HasSuffix. rewrite andb_true_iff, !bool_decide_eq_true. split.
  - intros [Hlen Heq]. exists (strings.upto (strings.len s - strings.len x) s).
    rewrite <- (upto_from (strings.len s - strings.len x) s) at 1. by rewrite Heq.
  - intros [t ->]. rewrite len_app. split; [lia|].
    replace (strings.len t + strings.len x - strings.len x) with (strings.len t) by lia.
    apply from_app.
Qed.

Lemma HasSuffix_nonempty (s x : string) :
  strings.HasSuffix s x = true -> x <> "" -> s <> "".
Proof.
  intros [t ->]%HasSuffix_spec Hx Hs. destruct t; simpl in Hs; [done | discriminate].
Qed.

(** ** Map match ([getMapMatch]) *)

Lemma prefixKey_nonempty (c k : string) : prefixKey c k = true -> k <> "".
Proof.
  unfold prefixKey. intros [[H|H]%orb_true_iff _]%andb_true_iff;
    by eapply HasSuffix_nonempty.
Qed.

Lemma getMapMatch_step_eq (c cur k : string) :
  getMapMatch_step c cur k =
    if prefixKey c k
    then if bool_decide (cur = "") || bool_decide (strings.len cur < strings.len k)
         then k else cur
    else cur.
Proof.
  unfold getMapMatch_step, prefixKey.
  destruct (strings.HasSuffix k "/"), (strings.HasSuffix k "*"); simpl; try done;
    by destruct (strings.HasPrefix c _).
Qed.

(** The loop of [getMapMatch] keeps in [curMatch] a longest prefix key
    seen so far, the first of that length. *)
Lemma getMapMatch_loop (c : string) (keys : list string) (cur : string) :
  (cur = "" \/ prefixKey c cur = true) ->
  exists r, foldl (getMapMatch_step c) cur keys = r
  /\ (r = cur \/ r ∈ keys)
  /\ (r = "" \/ prefixKey c r = true)
  /\ strings.len cur <= strings.len r
  /\ (forall k, k ∈ keys -> prefixKey c k = true -> strings.len k <= strings.len r)
  /\ (r = "" -> forall k, k ∈ keys -> prefixKey c k = false).
Proof.
  revert cur; induction keys as [|k keys IH]; intros cur Hcur; simpl.
  { exists cur. split_and!; auto; intros; exfalso; by eapply not_elem_of_nil. }
  rewrite getMapMatch_step_eq.
  destruct (prefixKey c k) eqn:Hk.
  - destruct (bool_decide (cur = "") || bool_decide (strings.len cur < strings.len k))
      eqn:Hupd.
    + destruct (IH k (or_intror Hk)) as (r & Hr & Hin & Hq & Hlen & Hmax & Hempty).
      exists r. split_and!.
      * done.
      * destruct Hin as [->|Hin]; right; [left | by right].
      * done.
      * apply orb_true_iff in Hupd as [->%bool_decide_eq_true|Hlt%bool_decide_eq_true];
          simpl; unfold strings.len in *; simpl; lia.
      * intros k' [->|Hk']%elem_of_cons Hq'; [done | by apply Hmax].
      * intros ->. destruct Hin as [<-|Hin].
        -- by apply prefixKey_nonempty in Hk.
        -- apply prefixKey_nonempty in Hk. destruct k; [done|].
           unfold strings.len in Hlen; simpl in Hlen; lia.
    + apply orb_false_iff in Hupd as [Hne%bool_decide_eq_false Hge%bool_decide_eq_false].
      destruct (IH cur Hcur) as (r & Hr & Hin & Hq & Hlen & Hmax & Hempty).
      exists r. split_and!.
      * done.
      * destruct Hin as [->|Hin]; [by left | right; by right].
      * done.
      * done.
      * intros k' [->|Hk']%elem_of_cons Hq'; [lia | by apply Hmax].
      * intros ->. destruct cur; [done|].
        unfold strings.len in Hlen; simpl in Hlen; lia.
  - destruct (IH cur Hcur) as (r & Hr & Hin & Hq & Hlen & Hmax & Hempty).
    exists r. split_and!.
    + done.
    + destruct Hin as [->|Hin]; [by left | right; by right].
    + done.
    + done.
    + intros k' [->|Hk']%elem_of_cons Hq'; [congruence | by apply Hmax].
    + intros Hr' k' [->|Hk']%elem_of_cons; [done | by apply Hempty].
Qed.

Section MapMatch.
Context {R : RangeOrder}.
Hypothesis R_ok : RangeOrderOk R.

(** C3.  For every table [tbl] and candidate [c]: when [c] is a key of
    [tbl] the map match is [c] itself, whatever prefix keys there are.
    Otherwise only the keys that end in [/] or [*] count, both sigils
    alike: the key without its last byte must be a string-prefix of [c].
    If some key qualifies the match is such a key of [tbl] and no
    qualifying key is longer; if none does the match is the empty string
    (no match). *)
Theorem getMapMatch_spec {T} (c : string) (tbl : gmap string T) :
  (is_Some (tbl !! c) -> getMapMatch c tbl = c)
  /\ (tbl !! c = None ->
      let m := getMapMatch c tbl in
      ((exists k, is_Some (tbl !! k) /\ prefixKey c k = true) ->
         is_Some (tbl !! m) /\ prefixKey c m = true
         /\ forall k, is_Some (tbl !! k) -> prefixKey c k = true ->
                      strings.len k <= strings.len m)
      /\ ((forall k, is_Some (tbl !! k) -> prefixKey c k = false) -> m = "")).
Proof.
  unfold getMapMatch. split.
  - intros [v ->]. done.
  - intros ->. simpl.
    destruct (R_ok T tbl) as [_ Hkeys].
    destruct (getMapMatch_loop c (range_order tbl) "" (or_introl eq_refl))
      as (r & -> & Hin & Hq & _ & Hmax & Hempty).
    split.
    + intros (k & Hk & Hqk).
      assert (r <> "") as Hne.
      { intros Hr. rewrite (Hempty Hr k) in Hqk; [done | by apply Hkeys]. }
      destruct Hin as [?|Hin]; [done|]. destruct Hq as [?|Hq]; [done|].
      split_and!; [by apply Hkeys | done |].
      intros k' Hk' Hq'. apply Hmax; [by apply Hkeys | done].
    + intros Hnone.
      destruct Hq as [?|Hq]; [done|]. destruct Hin as [Hr|Hin]; [done|].
      rewrite Hnone in Hq; [done | by apply Hkeys].
Qed.

End MapMatch.

(** ** Scope matches ([getScopeMatches]) *)

#[global] Instance by_length_trans : Transitive by_length.
Proof. unfold by_length. intros a b c ? ?. lia. Qed.
#[global] Instance by_length_total : Total by_length.
Proof. unfold by_length. intros a b. lia. Qed.

Lemma StronglySorted_filter {A} (Rel : relation A) (P : A -> Prop)
    `{forall x, Decision (P x)} (l : list A) :
  StronglySorted Rel l -> StronglySorted Rel (filter P l).
Proof.
  induction 1 as [|x l Hl IH Hx]; [constructor|].
  rewrite filter_cons. destruct (decide (P x)); [|done].
  constructor; [done|].
  apply Forall_forall. intros y [_ Hy]%list_elem_of_filter.
  by eapply Forall_forall in Hx.
Qed.

(** The first loop pairs every scope key with its resolved location, in
    the order of the keys, as long as every key resolves. *)
Lemma scopeCandidates_Ok (keys : list string) (mapUrl rootUrl : option URL) :
  (forall k, k ∈ keys -> is_Ok (resolve k mapUrl rootUrl)) ->
  exists cands, scopeCandidates keys mapUrl rootUrl = Ok cands
    /\ First <$> cands = keys
    /\ forall c, c ∈ cands -> resolve (First c) mapUrl rootUrl = Ok (Second c).
Proof.
  induction keys as [|k keys IH]; intros Hres; simpl.
  - exists []. split_and!; [done..|]. intros c Hc. by apply not_elem_of_nil in Hc.
  - destruct (Hres k) as [u Hu]; [left|].
    destruct IH as (cands & -> & Hkeys & Hall).
    { intros k' Hk'. apply Hres. by right. }
    rewrite Hu. simpl. exists (mkTuple k u :: cands). split_and!.
    + done.
    + by rewrite fmap_cons, Hkeys.
    + intros c [->|Hc]%elem_of_cons; [done | by apply Hall].
Qed.

(** A key that does not resolve makes the whole call fail. *)
Lemma scopeCandidates_not_Ok (keys : list string) (mapUrl rootUrl : option URL) (k : string) :
  k ∈ keys -> ~ is_Ok (resolve k mapUrl rootUrl) ->
  ~ is_Ok (scopeCandidates keys mapUrl rootUrl).
Proof.
  induction keys as [|k' keys IH]; intros Hk Hres [cands Hc].
  - by apply not_elem_of_nil in Hk.
  - simpl in Hc. destruct (resolve k' mapUrl rootUrl) as [u| |] eqn:Hu; try done.
    simpl in Hc.
    destruct (scopeCandidates keys mapUrl rootUrl) as [rest| |] eqn:Hrest; try done.
    apply elem_of_cons in Hk as [->|Hk].
    + apply Hres. by exists u.
    + apply IH; [done..|]. by exists rest.
Qed.

Section ScopeMatches.
Context {R : RangeOrder}.
Hypothesis R_ok : RangeOrderOk R.

(** A scope key that does not resolve makes [getScopeMatches] fail, and
    with it the whole resolution. *)
Lemma getScopeMatches_not_Ok (parentUrl : string) (scopes : Scopes)
    (mapUrl rootUrl : option URL) (k : string) :
  is_Some (scopes !! k) -> ~ is_Ok (resolve k mapUrl rootUrl) ->
  ~ is_Ok (getScopeMatches parentUrl scopes mapUrl rootUrl).
Proof.
  intros Hk Hres [ms Hms]. unfold getScopeMatches in Hms.
  destruct (scopeCandidates (range_order scopes) mapUrl rootUrl) as [cands| |] eqn:Hc;
    try done.
  eapply scopeCandidates_not_Ok; [|done|by exists cands].
  by apply (R_ok _ scopes).
Qed.

(** When every scope key resolves under the map's own
    [(mapUrl, rootUrl)], [getScopeMatches] returns the scope-match set:
    it holds a scope (with its absolute location [u]) exactly when [u]
    equals the canonical parent location, or [u] ends in [/] and is a
    string-prefix of the parent location; no scope is listed twice; and
    the list is in ascending order of the length of the absolute
    locations. *)
Lemma getScopeMatches_spec (parentUrl : string) (scopes : Scopes)
    (mapUrl rootUrl : option URL) :
  (forall k, is_Some (scopes !! k) -> is_Ok (resolve k mapUrl rootUrl)) ->
  exists ms, getScopeMatches parentUrl scopes mapUrl rootUrl = Ok ms
    /\ (forall s u, mkTuple s u ∈ ms <->
          is_Some (scopes !! s)
          /\ resolve s mapUrl rootUrl = Ok u
          /\ (u = parentUrl
              \/ (strings.HasSuffix u "/" = true /\ strings.HasPrefix parentUrl u = true)))
    /\ NoDup (First <$> ms)
    /\ StronglySorted by_length ms.
Proof.
  intros Hres. unfold getScopeMatches.
  destruct (R_ok _ scopes) as [Hnodup Hkeys].
  destruct (scopeCandidates_Ok (range_order scopes) mapUrl rootUrl)
    as (cands & -> & Hfirst & Hall).
  { intros k Hk. apply Hres. by apply Hkeys. }
  simpl. eexists. split; [done|]. split_and!.
  - intros s u. rewrite list_elem_of_filter, merge_sort_Permutation.
    unfold scopeMatches_keep. simpl.
    rewrite orb_true_iff, andb_true_iff, bool_decide_eq_true. split.
    + intros [Hkeep Hin]. specialize (Hall _ Hin). simpl in Hall. split_and!; [|done..].
      apply Hkeys. rewrite <- Hfirst.
      by apply (list_elem_of_fmap_2 First) in Hin.
    + intros (Hs & Hu & Hkeep). split; [done|].
      apply Hkeys in Hs. rewrite <- Hfirst in Hs.
      apply list_elem_of_fmap in Hs as ([s' u'] & -> & Hin).
      specialize (Hall _ Hin). simpl in *. congruence.
  - eapply NoDup_fmap_2_strong.
    + intros [s1 u1] [s2 u2] [_ H1]%list_elem_of_filter [_ H2]%list_elem_of_filter Heq.
      simpl in Heq. subst s2.
      rewrite merge_sort_Permutation in H1, H2.
      apply Hall in H1, H2. simpl in *. congruence.
    + apply NoDup_filter. rewrite merge_sort_Permutation.
      eapply NoDup_fmap_1. by rewrite Hfirst.
  - apply StronglySorted_filter, StronglySorted_merge_sort; apply _.
Qed.

End ScopeMatches.

(** ** Specifiers that no table maps ([ResolveWithParent]) *)

Section Unmatched.
Context {R : RangeOrder}.
Variables (i : importMap) (nonPlain : bool) (Cand : string -> Prop).

(** The candidates stay in [Cand] through the retries. *)
Hypothesis Cand_rebase : nonPlain = true ->
  forall c, Cand c -> forall root, root = rootUrl i \/ root = None ->
  exists c', rebase c (mapUrl i) root = Ok c' /\ Cand c'.

Lemma matchWithRetries_unmatched (c : string) (tbl : gmap string string) :
  Cand c -> (forall c', Cand c' -> getMapMatch c' tbl = "") ->
  exists c', matchWithRetries i nonPlain c tbl = Ok (c', "")
    /\ Cand c' /\ (nonPlain = false -> c' = c).
Proof.
  intros Hc Hno. unfold matchWithRetries. rewrite (Hno c Hc).
  destruct nonPlain eqn:Hnp; simpl; [|by exists c].
  destruct (Cand_rebase eq_refl c Hc (rootUrl i)) as (c1 & -> & Hc1); [by left|].
  simpl. rewrite (Hno c1 Hc1). simpl.
  destruct (bool_decide (is_Some (rootUrl i))); [|by exists c1].
  destruct (Cand_rebase eq_refl c1 Hc1 None) as (c2 & -> & Hc2); [by right|].
  simpl. rewrite (Hno c2 Hc2). by exists c2.
Qed.

Lemma scopeLoop_unmatched (ms : list scopeMatchTuple) (c : string) :
  Cand c ->
  (forall c' m, Cand c' -> m ∈ ms ->
     getMapMatch c' (default ∅ (scopes i !! First m) : gmap string string) = "") ->
  exists c', scopeLoop i nonPlain ms c = Ok (inr c')
    /\ Cand c' /\ (nonPlain = false -> c' = c).
Proof.
  revert c; induction ms as [|m ms IH]; intros c Hc Hno; simpl; [by exists c|].
  destruct (matchWithRetries_unmatched c (default ∅ (scopes i !! First m)) Hc)
    as (c1 & -> & Hc1 & Heq1).
  { intros c' Hc'. apply Hno; [done | left]. }
  simpl. destruct (IH c1 Hc1) as (c2 & -> & Hc2 & Heq2).
  { intros c' m' Hc' Hm'. apply Hno; [done | by right]. }
  exists c2. split_and!; [done..|]. intros Hnp. rewrite Heq2, Heq1; done.
Qed.

End Unmatched.

(** C5.  Take a specifier whose working form [c0] and all of whose retry
    forms (the set [Cand], closed under the two rebasing retries) find no
    match in any table that the resolution consults.  Then
    [ResolveWithParent] returns [c0], the specifier resolved against the
    parent location, when the specifier is not plain, and fails with the
    error that carries the specifier and the parent location when it is
    plain. *)
Theorem ResolveWithParent_unmatched {R : RangeOrder} (i : importMap) (specifier : string)
    (parent : URL) (parentUrlRaw : string) (ms : list scopeMatchTuple) (c0 : string)
    (Cand : string -> Prop) :
  resolve (String_ parent) (mapUrl i) (rootUrl i) = Ok parentUrlRaw ->
  getScopeMatches parentUrlRaw (scopes i) (mapUrl i) (rootUrl i) = Ok ms ->
  absoluteForm parent specifier = Ok c0 ->
  Cand c0 ->
  (isPlain specifier = false ->
   forall c, Cand c -> forall root, root = rootUrl i \/ root = None ->
   exists c', rebase c (mapUrl i) root = Ok c' /\ Cand c') ->
  (forall c tbl, Cand c -> tried i ms tbl -> getMapMatch c tbl = "") ->
  ResolveWithParent i specifier (Some parent) =
    if isPlain specifier then Err (UnableToResolve specifier (String_ parent))
    else Ok c0.
Proof.
  intros Hparent Hms Habs Hc0 Hclosed Hno.
  unfold ResolveWithParent, absoluteForm in *. rewrite Hparent. simpl.
  destruct (isPlain specifier) eqn:Hplain; simpl.
  - injection Habs as <-. rewrite Hms. simpl.
    destruct (scopeLoop_unmatched i false Cand) with (ms := ms) (c := specifier)
      as (c1 & -> & Hc1 & Heq1); [done.. | |].
    { intros c' m Hc' Hm. apply Hno; [done | right; by exists m]. }
    simpl.
    destruct (matchWithRetries_unmatched i false Cand) with (c := c1) (tbl := imports i)
      as (c2 & -> & Hc2 & Heq2); [done.. | |].
    { intros c' Hc'. apply Hno; [done | by left]. }
    simpl. by rewrite Heq2, Heq1.
  - destruct (Parse specifier) as [u| |]; simpl in *; try done.
    injection Habs as <-. rewrite Hms. simpl.
    destruct (scopeLoop_unmatched i true Cand) with (ms := ms)
      (c := String_ (ResolveReference parent u)) as (c1 & -> & Hc1 & _).
    { intros _. by apply Hclosed. }
    { done. }
    { intros c' m Hc' Hm. apply Hno; [done | right; by exists m]. }
    simpl.
    destruct (matchWithRetries_unmatched i true Cand) with (c := c1) (tbl := imports i)
      as (c2 & -> & Hc2 & _).
    { intros _. by apply Hclosed. }
    { done. }
    { intros c' Hc'. apply Hno; [done | by left]. }
    done.
Qed.

(** ** Concrete maps *)

Lemma key_order_ok : RangeOrderOk key_order.
Proof.
  intros V m. split.
  - apply NoDup_fst_map_to_list.
  - intros k. unfold range_order, key_order. rewrite list_elem_of_fmap. split.
    + intros ([k' v] & -> & Hin). apply elem_of_map_to_list in Hin. by exists v.
    + intros [v Hv]. exists (k, v). split; [done|]. by apply elem_of_map_to_list.
Qed.

(** The four assertions of [TestResolveImportMap] and the one of
    [TestResolveLocalFilePaths] hold of the embedding. *)
Example TestResolveImportMap :
  let run specifier parent :=
    m ← test_map;
    ResolveWithParent (R := key_order) m specifier (Some (parsed parent)) in
  run "test" "https://site.com" = Ok "https://site.com/test-map.js"
  /\ run "/url.js" "https://another.com/" = Ok "https://site.com/url-map.js"
  /\ run "https://site.com/url.js" "https://another.com/x" = Ok "https://site.com/scoped-map.js"
  /\ run "https://another.com/url.js" "https://site.com" = Ok "https://site.com/url-map.js".
Proof. vm_compute. done. Qed.

Example TestResolveLocalFilePaths :
  (m ← New (made {[ "@/" := "./" ]}) nil_map nil_map None None "/home/user/project";
   ResolveWithParent (R := key_order) m "@/lib/test.js" (Some (parsed "/home/user/project")))
  = Ok "file:///home/user/project/lib/test.js".
Proof. vm_compute. done. Qed.
(** The library models agree with the documented behaviour of Go on
    sample inputs (the reference resolution examples are those of RFC 3986,
    section 5.4). *)
Example strings_ex : strings.HasSuffix "https://site.com/" "/" = true /\
                       strings.HasSuffix "" "/" = false /\
                       strings.Cut "a?b?c" "?" = ("a", "b?c", true) /\
                       strings.LastIndex "a:b:c" ":" = Some 3.
Proof. vm_compute. done. Qed.

Example path_Join_ex :
  path.Join ["/"; "."; "/test-map.js"] = "/test-map.js" /\
  path.Join ["/a/b/"; "."; "/../c//d/"] = "/a/c/d" /\
  path.Clean "../a/../../b" = "../../b" /\
  path.Clean "/../a" = "/a" /\
  path.Clean "a/.." = ".".
Proof. vm_compute. done. Qed.


Example url_String_ex :
  url.String_ (parsed "https://site.com") = "https://site.com" /\
  url.String_ (parsed "file:///test/a/") = "file:///test/a/" /\
  url.String_ (parsed "HTTP://u:p@h.com:80/a%20b/c d?x=1#f") = "http://u:p@h.com:80/a%20b/c%20d?x=1#f" /\
  url.String_ (parsed "mailto:a@b.c") = "mailto:a@b.c" /\
  url.String_ (parsed "./a:b") = "./a:b" /\
  url.Parse "a:b/c" = Ok (url.mkURL "a" "b/c" None "" "" "" false false "" "" "") /\
  url.Parse ":x" = Err (UrlError "parse" ":x" MissingProtocolScheme) /\
  url.Parse "x/y:z" = Ok (url.with_path url.empty "x/y:z" "") /\
  url.Parse "x:y/z" = Ok (url.mkURL "x" "y/z" None "" "" "" false false "" "" "") /\
  url.Parse "1x:y" = Err (UrlError "parse" "1x:y" FirstSegmentColon) /\
  url.String_ (url.ResolveReference (parsed "https://site.com") (url.with_path url.empty "/" ""))
    = "https://site.com/" /\
  url.String_ (url.ResolveReference (parsed "http://a/b/c/d;p?q") (parsed "../../g")) = "http://a/g" /\
  url.String_ (url.ResolveReference (parsed "http://a/b/c/d;p?q") (parsed "g;x?y#s")) = "http://a/b/c/g;x?y#s" /\
  url.String_ (url.ResolveReference (parsed "http://a/b/c/d;p?q") (parsed "")) = "http://a/b/c/d;p?q" /\
  url.String_ (url.ResolveReference (parsed "http://a/b/c/d;p?q") (parsed "./")) = "http://a/b/c/" /\
  url.String_ (url.ResolveReference (parsed "http://a/b/c/d;p?q") (parsed "../..")) = "http://a/" /\
  url.String_ (url.ResolveReference (parsed "http://a/b/c/d;p?q") (parsed "//g")) = "http://g" /\
  url.JoinPath "https://site.com/" ["."; "/test-map.js"] = Ok "https://site.com/test-map.js" /\
  url.JoinPath "https://a.com/" ["."; "/x.js?q=1"] = Ok "https://a.com/x.js%3Fq=1" /\
  url.JoinPath "https://a.com/sub/" ["."; "/dir/"] = Ok "https://a.com/sub/dir/" /\
  url.Port (parsed "https://h.com:8080/x") = "8080".
Proof. vm_compute. repeat split. Qed.


(** ** Relocation ([Rebase]) *)

(** A table all of whose keys are plain comes out of the loop of [Rebase]
    with the same keys, each target resolved under the old pair and rebased
    onto the old pair again; the new pair plays no part. *)
Lemma rebaseImport_plain {R : RangeOrder} (i : importMap) (mapUrl' rootUrl' : option URL)
    (keys : list string) (tbl tbl' : gmap string string) :
  NoDup keys -> (forall k, k ∈ keys -> isPlain k = true) ->
  range_keys (rebaseImport i mapUrl' rootUrl') keys tbl = Ok tbl' ->
  forall k t, tbl !! k = Some t ->
    if decide (k ∈ keys)
    then exists t', (r ← resolve t (mapUrl i) (rootUrl i); rebase r (mapUrl i) (rootUrl i)) = Ok t'
                    /\ tbl' !! k = Some t'
    else tbl' !! k = Some t.
Proof.
  revert tbl; induction keys as [|k0 keys IH]; intros tbl Hnodup Hplain Hrun k t Hk.
  { simpl in Hrun. injection Hrun as <-. by rewrite decide_False by apply not_elem_of_nil. }
  apply NoDup_cons in Hnodup as [Hk0 Hnodup]. simpl in Hrun.
  assert (forall k', k' ∈ keys -> isPlain k' = true) as Hplain'.
  { intros k' Hk'. apply Hplain. by right. }
  destruct (tbl !! k0) as [v|] eqn:Hv.
  - destruct (rebaseImport i mapUrl' rootUrl' k0 v tbl) as [tbl0| |] eqn:Hbody; try done.
    simpl in Hrun. unfold rebaseImport in Hbody. rewrite (Hplain k0) in Hbody by left.
    destruct (resolve v (mapUrl i) (rootUrl i)) as [r| |] eqn:Hr; try done.
    simpl in Hbody.
    destruct (rebase r (mapUrl i) (rootUrl i)) as [t0| |] eqn:Ht0; try done.
    simpl in Hbody. injection Hbody as <-.
    destruct (decide (k = k0)) as [->|Hne].
    + rewrite decide_True by left.
      pose proof (IH _ Hnodup Hplain' Hrun k0 t0 (lookup_insert_eq _ _ _)) as Hk0'.
      rewrite decide_False in Hk0' by done.
      exists t0. split; [|done]. rewrite Hv in Hk. injection Hk as <-.
      rewrite Hr. simpl. done.
    + pose proof (IH _ Hnodup Hplain' Hrun k t) as Hk'.
      rewrite lookup_insert_ne in Hk' by done. specialize (Hk' Hk).
      destruct (decide (k ∈ keys)) as [Hin|Hnin].
      * rewrite decide_True by (by right). done.
      * rewrite decide_False; [done|]. by intros [?|?]%elem_of_cons.
  - assert (k <> k0) as Hne by congruence.
    pose proof (IH _ Hnodup Hplain' Hrun k t Hk) as Hk'.
    destruct (decide (k ∈ keys)) as [Hin|Hnin].
    + rewrite decide_True by (by right). done.
    + rewrite decide_False; [done|]. by intros [?|?]%elem_of_cons.
Qed.

(** A loop over a table without entries leaves it without entries. *)
Lemma range_keys_empty {R : RangeOrder} {V}
    (body : string -> V -> gmap string V -> result (gmap string V)) (keys : list string) :
  range_keys body keys ∅ = Ok ∅.
Proof. induction keys as [|k keys IH]; [done|]. cbn [range_keys]. by rewrite lookup_empty. Qed.

Lemma in_place_entries {R : RangeOrder} {V}
    (body : string -> V -> gmap string V -> result (gmap string V))
    (t : gomap V) (m : gmap string V) :
  range_mut body (entries t) = Ok m -> entries (in_place t m) = m.
Proof.
  destruct t as [|m0]; cbn [entries in_place]; [|done].
  unfold range_mut. rewrite range_keys_empty. by intros [= <-].
Qed.

(** What a call of [Rebase] that returns has done: the three loops have
    run to their end, and the receiver holds what they left. *)
Lemma Rebase_Ok {R : RangeOrder} (i i' : importMap) (mapUrl' rootUrl' : option URL) :
  Rebase i mapUrl' rootUrl' = Ok i' ->
  exists newMap, mapUrl' = Some newMap
    /\ range_mut (rebaseImport i mapUrl' (inferRoot i newMap rootUrl')) (imports i)
       = Ok (imports i')
    /\ range_mut (rebaseScope i mapUrl' (inferRoot i newMap rootUrl')) (scopes i)
       = Ok (scopes i')
    /\ range_mut (rebaseIntegrity i) (integrity i) = Ok (integrity i')
    /\ mapUrl i' = mapUrl'
    /\ rootUrl i' = inferRoot i newMap rootUrl'.
Proof.
  unfold Rebase. destruct mapUrl' as [m|]; [|done]. intros H. exists m.
  destruct (range_mut _ (imports i)) as [im| |] eqn:Him; cbn [mbind result_bind] in H;
    try done.
  destruct (range_mut _ (scopes i)) as [sc| |] eqn:Hsc; cbn [mbind result_bind] in H;
    try done.
  destruct (range_mut _ (integrity i)) as [ig| |] eqn:Hig; cbn [mbind result_bind] in H;
    try done.
  injection H as <-.
  cbn [imports scopes integrity imports_ scopes_ integrity_ mapUrl rootUrl].
  unfold imports, scopes, integrity in Him, Hsc, Hig.
  rewrite (in_place_entries _ _ _ Him), (in_place_entries _ _ _ Hsc),
    (in_place_entries _ _ _ Hig).
  done.
Qed.

Lemma Rebase_plain_imports {R : RangeOrder} (i i' : importMap) (mapUrl' rootUrl' : option URL) :
  RangeOrderOk R ->
  (forall k, is_Some (imports i !! k) -> isPlain k = true) ->
  Rebase i mapUrl' rootUrl' = Ok i' ->
  forall k t, imports i !! k = Some t ->
  exists t', (r ← resolve t (mapUrl i) (rootUrl i); rebase r (mapUrl i) (rootUrl i)) = Ok t'
             /\ imports i' !! k = Some t'.
Proof.
  intros HR Hplain Hrun k t Hk.
  apply Rebase_Ok in Hrun as (m & -> & Him & _).
  destruct (HR _ (imports i)) as [Hnodup Hkeys].
  pose proof (rebaseImport_plain i _ _ _ _ _ Hnodup
                (fun k' Hk' => Hplain k' (proj1 (Hkeys k') Hk')) Him k t Hk) as H.
  rewrite decide_True in H; [done|]. apply Hkeys. by exists t.
Qed.

(** C1.  Relocating [map_at_a] to [https://b.com/] leaves the target of
    [x] in the form it has under the old pair, [https://b.com/x.js]: the
    loop rebases the resolved target onto [(i.mapUrl, i.rootUrl)].
    Rebased onto the new pair, as the keys are, it would be [/x.js].  The
    integrity value is overwritten with the empty string that the lookup
    of the value as a key yields. *)
Theorem Rebase_targets_keep_old_frame :
  let old := Some (parsed "https://a.com/") in
  let new := Some (parsed "https://b.com/") in
  (i ← map_at_a; i' ← Rebase (R := key_order) i new None; Ok (observe i'))
    = Ok ([("x", "https://b.com/x.js")], [], [("/a.js", "")],
          Some "https://b.com/", Some "https://b.com/")
  /\ (r ← resolve "https://b.com/x.js" old old; rebase r new new) = Ok "/x.js"
  /\ (r ← resolve "sha384-abc" old old; rebase r new new) = Ok "https://a.com/sha384-abc".
Proof. vm_compute. done. Qed.

(** C2.  Relocating [map_at_a] from [https://a.com/] to [https://b.com/]
    and back does not give the tables back: [x], which named
    [https://b.com/x.js], ends as [/x.js] under the root
    [https://a.com/]. *)
Theorem Rebase_there_and_back :
  let a := Some (parsed "https://a.com/") in
  let b := Some (parsed "https://b.com/") in
  (i ← map_at_a; Ok (observe i))
    = Ok ([("x", "https://b.com/x.js")], [], [("/a.js", "sha384-abc")],
          Some "https://a.com/", Some "https://a.com/")
  /\ (i ← map_at_a;
      i1 ← Rebase (R := key_order) i b None;
      i2 ← Rebase (R := key_order) i1 a None;
      Ok (observe i2))
    = Ok ([("x", "/x.js")], [], [("/a.js", "")],
          Some "https://a.com/", Some "https://a.com/").
Proof. vm_compute. done. Qed.

(** ** Canonical forms ([resolve] and [rebase]) *)

(** C6.  [TestRebaseUrl] takes the absolute [file:///test/] to be its own
    canonical form under map and root [file:///test/a/]: [resolve] returns
    it unchanged, and [rebase] then answers [/file:///test/].  Likewise the
    root-relative [/x.js?q=1] is a fixed point of [rebase] under map and
    root [https://a.com/], yet [resolve] escapes the [?] on the way and the
    pair does not give it back. *)
Theorem rebase_resolve_not_identity :
  let t := Some (parsed "file:///test/a/") in
  let a := Some (parsed "https://a.com/") in
  (resolve "file:///test/" t t = Ok "file:///test/"
   /\ (r ← resolve "file:///test/" t t; rebase r t t) = Ok "/file:///test/")
  /\ (rebase "/x.js?q=1" a a = Ok "/x.js?q=1"
      /\ resolve "/x.js?q=1" a a = Ok "https://a.com/x.js%3Fq=1"
      /\ (r ← resolve "/x.js?q=1" a a; rebase r a a) = Ok "/x.js%3Fq=1").
Proof. vm_compute. done. Qed.

(** The two assertions of [url_test.go], which expect [file:///test/]. *)
Example TestRebaseUrl :
  rebase "file:///test/" (Some (parsed "file:///test/a/")) (Some (parsed "file:///test/a/"))
    = Ok "/file:///test/"
  /\ rebase "file:///test/" (Some (parsed "file:///test/a/")) (Some (parsed "file:///test/a/b/"))
    = Ok "/file:///test/".
Proof. vm_compute. done. Qed.

(** [url.Parse] and [url.JoinPath] return a value or an error; they do not
    panic. *)
Lemma Parse_no_panic (s : string) (p : panic) : Parse s <> Panic p.
Proof.
  unfold Parse. destruct (strings.Cut s "#") as [[u0 frag] found].
  destruct (parse u0 false); [done|]. destruct (decide (frag = "")); [done|].
  by destruct (setFragment _ frag).
Qed.

Lemma JoinPath_no_panic (base : string) (elem : list string) (p : panic) :
  JoinPath base elem <> Panic p.
Proof.
  unfold JoinPath. destruct (Parse base) as [u|e|q] eqn:Hu; simpl; try done.
  by apply Parse_no_panic in Hu.
Qed.

(** C9.  With a root set, [resolve] panics on exactly one input: [/] has
    no second byte, and the code reads [inputUrl[1]] of every input that
    starts with a slash.  On every other input it returns a string or an
    error. *)
Theorem resolve_panics_iff (inputUrl : string) (mapUrl : option URL) (root : URL) (p : panic) :
  resolve inputUrl mapUrl (Some root) = Panic p <-> inputUrl = "/" /\ p = IndexOutOfRange.
Proof.
  split; [|by intros [-> ->]].
  unfold resolve. destruct (strings.HasPrefix inputUrl "/") eqn:Hslash.
  - apply HasPrefix_spec in Hslash as [t ->]. destruct t as [|c t].
    + simpl. intros [= <-]. done.
    + change (strings.at_index ("/" +:+ String c t) 1) with (Ok c : result ascii).
      simpl. intros H. exfalso.
      destruct (decide (c = "/"%char)); simpl in H; by eapply JoinPath_no_panic.
  - intros H. exfalso. destruct (Parse inputUrl) as [u|e|q] eqn:Hu; simpl in H.
    + by destruct mapUrl.
    + done.
    + by eapply Parse_no_panic.
Qed.

(** ** Extending a map ([Extend]) *)

(** The renormalisation at the end of [Extend] relocates the receiver
    onto its own declaring location with no root given, and [Rebase] then
    takes the declaring location itself as the root. *)
Lemma inferRoot_same (i : importMap) (m : URL) :
  mapUrl i = Some m -> inferRoot i m None = Some m.
Proof. intros Hm. unfold inferRoot. rewrite Hm. by rewrite decide_True. Qed.

Lemma Rebase_locations {R : RangeOrder} (i i' : importMap) (mapUrl' rootUrl' : option URL) :
  Rebase i mapUrl' rootUrl' = Ok i' ->
  exists m, mapUrl' = Some m /\ mapUrl i' = Some m /\ rootUrl i' = inferRoot i m rootUrl'.
Proof.
  intros (m & -> & _ & _ & _ & Hm & Hroot)%Rebase_Ok. by exists m.
Qed.

Lemma copy_over_Ok {V} (merge : gmap string V -> gmap string V -> gmap string V)
    (theirs : gmap string V) (ours t : gomap V) :
  merge ∅ ∅ = ∅ ->
  copy_over merge theirs ours = Ok t -> entries t = merge theirs (entries ours).
Proof.
  intros Hmerge. destruct ours as [|m]; cbn [copy_over entries].
  - destruct (decide (size theirs = 0)) as [Hsize|]; [|done].
    apply map_size_empty_iff in Hsize as ->. intros [= <-]. by rewrite Hmerge.
  - by intros [= <-].
Qed.

(** What a call of [Extend] that returns has done: the entries of the
    other map are written over the receiver's, and the receiver is then
    relocated onto its own declaring location with no root given. *)
Lemma Extend_Ok {R : RangeOrder} (i other i' : importMap) (overrideScopes : bool) :
  Extend i other overrideScopes = Ok i' ->
  exists i0,
    imports i0 = imports other ∪ imports i
    /\ scopes i0 =
         (if overrideScopes then scopes other ∪ scopes i
          else union_with (fun theirs ours => Some (theirs ∪ ours)) (scopes other) (scopes i))
    /\ integrity i0 = integrity other ∪ integrity i
    /\ mapUrl i0 = mapUrl i /\ rootUrl i0 = rootUrl i
    /\ Rebase i0 (mapUrl i) None = Ok i'.
Proof.
  unfold Extend. intros H.
  destruct (copy_over union (imports other) (imports_ i)) as [im| |] eqn:Him;
    cbn [mbind result_bind] in H; try done.
  destruct (copy_over _ (scopes other) (scopes_ i)) as [sc| |] eqn:Hsc;
    cbn [mbind result_bind] in H; try done.
  destruct (copy_over union (integrity other) (integrity_ i)) as [ig| |] eqn:Hig;
    cbn [mbind result_bind] in H; try done.
  exists (ImportMap im sc ig (mapUrl i) (rootUrl i)).
  cbn [imports scopes integrity imports_ scopes_ integrity_ mapUrl rootUrl] in *.
  apply copy_over_Ok in Him; [|apply (left_id_L ∅ (∪))].
  apply copy_over_Ok in Hig; [|apply (left_id_L ∅ (∪))].
  apply copy_over_Ok in Hsc.
  - unfold imports, scopes, integrity. rewrite Him, Hig, Hsc.
    by destruct overrideScopes.
  - destruct overrideScopes; [apply (left_id_L ∅ (∪))|].
    apply map_eq. intros k. by rewrite lookup_union_with, !lookup_empty.
Qed.

(** C7.  After [Extend] has returned successfully the declaring location
    of the receiver is what it was, and its root is that declaring
    location, whatever the root was before. *)
Theorem Extend_root_is_mapUrl {R : RangeOrder} (i other i' : importMap) (overrideScopes : bool) :
  Extend i other overrideScopes = Ok i' ->
  mapUrl i' = mapUrl i /\ rootUrl i' = mapUrl i.
Proof.
  intros (i0 & _ & _ & _ & Hmap & _ & Hrun)%Extend_Ok.
  apply Rebase_locations in Hrun as (m & Hm & Hm' & Hroot).
  rewrite Hroot, Hm', Hm. split; [done|].
  apply inferRoot_same. by rewrite Hmap.
Qed.

(** A map that [New] declares at [file:///home/user/project/] has no
    root; extending it by an empty map gives it one. *)
Lemma Extend_root_is_mapUrl_witness :
  let i := mkImportMap ∅ ∅ ∅ (Some (parsed "file:///home/user/project/")) None in
  New (made ∅) (made ∅) (made ∅) None None "/home/user/project" = Ok i
  /\ Extend (R := key_order) i (mkImportMap ∅ ∅ ∅ None None) false
     = Ok (mkImportMap ∅ ∅ ∅ (mapUrl i) (mapUrl i))
  /\ rootUrl i = None
  /\ rootUrl (mkImportMap ∅ ∅ ∅ (mapUrl i) (mapUrl i)) = mapUrl i.
Proof.
  intros i.
  assert (Extend (R := key_order) i (mkImportMap ∅ ∅ ∅ None None) false
          = Ok (mkImportMap ∅ ∅ ∅ (mapUrl i) (mapUrl i))) as H by (vm_compute; reflexivity).
  split; [vm_compute; reflexivity|]. split; [exact H|]. split; [reflexivity|].
  exact (proj2 (Extend_root_is_mapUrl (R := key_order) i _ _ false H)).
Defined.

(** ** Integrity lookups ([GetIntegrityValue]) *)

(** C8.  When the canonical form [t] of the target is not a key of the
    table, the second lookup is under [t] without its first two bytes,
    whatever these are: the hash stored there is returned, and the
    integrity-not-found error only if that key is missing too. *)
Theorem GetIntegrityValue_second_key (i : importMap) (target t : string) :
  rebase target (mapUrl i) (rootUrl i) = Ok t ->
  integrity i !! t = None ->
  2 <= strings.len t ->
  GetIntegrityValue i target =
    match integrity i !! strings.from 2 t with
    | Some v => Ok v
    | None => Err IntegrityNotFound
    end.
Proof.
  intros Ht Hmiss Hlen. unfold GetIntegrityValue. rewrite Ht. simpl. rewrite Hmiss.
  unfold strings.slice_from. by rewrite decide_True.
Qed.

(** The canonical form of [/ab] is [/ab], which does not start with [./]
    and is not in the table; the lookup answers with the hash stored
    under [b]. *)
Lemma GetIntegrityValue_second_key_witness :
  let i := mkImportMap ∅ ∅ {[ "b" := "sha384-abc" ]} (Some (parsed "https://site.com/")) None in
  rebase "/ab" (mapUrl i) (rootUrl i) = Ok "/ab"
  /\ integrity i !! "/ab" = None
  /\ 2 <= strings.len "/ab"
  /\ strings.HasPrefix "/ab" "./" = false
  /\ GetIntegrityValue i "/ab" = Ok "sha384-abc".
Proof.
  intros i.
  assert (rebase "/ab" (mapUrl i) (rootUrl i) = Ok "/ab") as Ht by (vm_compute; reflexivity).
  assert (integrity i !! "/ab" = None) as Hmiss by (vm_compute; reflexivity).
  assert (2 <= strings.len "/ab") as Hlen by (vm_compute; lia).
  split; [exact Ht|]. split; [exact Hmiss|]. split; [exact Hlen|].
  split; [reflexivity|].
  exact (GetIntegrityValue_second_key i "/ab" "/ab" Ht Hmiss Hlen).
Defined.

(** C10.  When the canonical form [t] of the target has fewer than two
    bytes and is not a key of the table, the lookup goes on to
    [targetRebased[2:]] and panics. *)
Theorem GetIntegrityValue_short_panics (i : importMap) (target t : string) :
  rebase target (mapUrl i) (rootUrl i) = Ok t ->
  integrity i !! t = None ->
  strings.len t < 2 ->
  GetIntegrityValue i target = Panic SliceBoundsOutOfRange.
Proof.
  intros Ht Hmiss Hlen. unfold GetIntegrityValue. rewrite Ht. simpl. rewrite Hmiss.
  unfold strings.slice_from. rewrite decide_False by lia. done.
Qed.

(** A map that [New] declares at [file:///home/user/project/] has no root
    and no integrity entry; the canonical form of [/] is [/]. *)
Lemma GetIntegrityValue_short_panics_witness :
  let i := mkImportMap ∅ ∅ ∅ (Some (parsed "file:///home/user/project/")) None in
  New (made ∅) (made ∅) (made ∅) None None "/home/user/project" = Ok i
  /\ rebase "/" (mapUrl i) (rootUrl i) = Ok "/"
  /\ integrity i !! "/" = None
  /\ strings.len "/" < 2
  /\ GetIntegrityValue i "/" = Panic SliceBoundsOutOfRange.
Proof.
  intros i.
  assert (rebase "/" (mapUrl i) (rootUrl i) = Ok "/") as Ht by (vm_compute; reflexivity).
  assert (integrity i !! "/" = None) as Hmiss by (vm_compute; reflexivity).
  assert (strings.len "/" < 2) as Hlen by (vm_compute; lia).
  split; [vm_compute; reflexivity|]. split; [exact Ht|]. split; [exact Hmiss|].
  split; [exact Hlen|].
  exact (GetIntegrityValue_short_panics i "/" "/" Ht Hmiss Hlen).
Defined.

(** ** The theorems at concrete maps *)

Lemma getMapMatch_spec_witness :
  let c := "a/b/d.js" in
  let m := getMapMatch (R := key_order) c sample_table in
  RangeOrderOk key_order
  /\ sample_table !! c = None
  /\ (exists k, is_Some (sample_table !! k) /\ prefixKey c k = true)
  /\ m = "a/b/"
  /\ (is_Some (sample_table !! m) /\ prefixKey c m = true
      /\ forall k, is_Some (sample_table !! k) -> prefixKey c k = true ->
                   strings.len k <= strings.len m).
Proof.
  intros c m.
  assert (sample_table !! c = None) as Hnone by (vm_compute; reflexivity).
  assert (exists k, is_Some (sample_table !! k) /\ prefixKey c k = true) as Hex.
  { exists "a/". split; [eexists|]; vm_compute; reflexivity. }
  split; [exact key_order_ok|]. split; [exact Hnone|]. split; [exact Hex|].
  split; [vm_compute; reflexivity|].
  exact (proj1 (proj2 (getMapMatch_spec key_order_ok c sample_table) Hnone) Hex).
Defined.

Lemma getScopeMatches_spec_witness :
  let mapUrl := Some (parsed "https://site.com") in
  let rootUrl := Some (parsed "https://site.com/") in
  let parentUrl := "https://another.com/lib/x.js" in
  RangeOrderOk key_order
  /\ (forall k, is_Some (sample_scopes !! k) -> is_Ok (resolve k mapUrl rootUrl))
  /\ getScopeMatches (R := key_order) parentUrl sample_scopes mapUrl rootUrl
     = Ok [mkTuple "https://another.com/" "https://another.com/";
           mkTuple "https://another.com/lib/" "https://another.com/lib/"]
  /\ exists ms, getScopeMatches (R := key_order) parentUrl sample_scopes mapUrl rootUrl = Ok ms
    /\ (forall s u, mkTuple s u ∈ ms <->
          is_Some (sample_scopes !! s)
          /\ resolve s mapUrl rootUrl = Ok u
          /\ (u = parentUrl
              \/ (strings.HasSuffix u "/" = true /\ strings.HasPrefix parentUrl u = true)))
    /\ NoDup (First <$> ms)
    /\ StronglySorted by_length ms.
Proof.
  intros mapUrl rootUrl parentUrl.
  assert (forall k, is_Some (sample_scopes !! k) -> is_Ok (resolve k mapUrl rootUrl)) as Hres.
  { intros k [v Hv]. unfold sample_scopes in Hv.
    destruct (decide (k = "https://another.com/")) as [->|?];
      [eexists; vm_compute; reflexivity|].
    rewrite lookup_insert_ne in Hv by done.
    destruct (decide (k = "https://another.com/lib/")) as [->|?];
      [eexists; vm_compute; reflexivity|].
    rewrite lookup_insert_ne in Hv by done.
    destruct (decide (k = "https://third.com/")) as [->|?];
      [eexists; vm_compute; reflexivity|].
    rewrite lookup_singleton_ne in Hv by done. discriminate. }
  split; [exact key_order_ok|]. split; [exact Hres|].
  split; [vm_compute; reflexivity|].
  exact (getScopeMatches_spec key_order_ok parentUrl sample_scopes mapUrl rootUrl Hres).
Defined.

Lemma test_map_value_eq : test_map = Ok test_map_value.
Proof. vm_compute. reflexivity. Qed.

Lemma ResolveWithParent_unmatched_witness :
  let i := test_map_value in
  let parent := parsed "https://another.com/x" in
  let ms := [mkTuple "https://another.com/" "https://another.com/"] in
  let c0 := "https://another.com/y.js" in
  let Cand := fun c => c = c0 in
  resolve (String_ parent) (mapUrl i) (rootUrl i) = Ok "https://another.com/x"
  /\ getScopeMatches (R := key_order) "https://another.com/x" (scopes i) (mapUrl i) (rootUrl i)
     = Ok ms
  /\ absoluteForm parent "./y.js" = Ok c0
  /\ isPlain "./y.js" = false
  /\ (forall c, Cand c -> forall root, root = rootUrl i \/ root = None ->
      exists c', rebase c (mapUrl i) root = Ok c' /\ Cand c')
  /\ (forall c tbl, Cand c -> tried i ms tbl -> getMapMatch (R := key_order) c tbl = "")
  /\ ResolveWithParent (R := key_order) i "./y.js" (Some parent) = Ok c0
  /\ ResolveWithParent (R := key_order) i "react" (Some parent)
     = Err (UnableToResolve "react" "https://another.com/x").
Proof.
  intros i parent ms c0 Cand.
  assert (resolve (String_ parent) (mapUrl i) (rootUrl i) = Ok "https://another.com/x")
    as Hparent by (vm_compute; reflexivity).
  assert (getScopeMatches (R := key_order) "https://another.com/x" (scopes i)
            (mapUrl i) (rootUrl i) = Ok ms) as Hms by (vm_compute; reflexivity).
  assert (absoluteForm parent "./y.js" = Ok c0) as Habs by (vm_compute; reflexivity).
  assert (forall c, Cand c -> forall root, root = rootUrl i \/ root = None ->
          exists c', rebase c (mapUrl i) root = Ok c' /\ Cand c') as Hclosed.
  { intros c -> root [->| ->]; exists c0; split; vm_compute; reflexivity. }
  assert (forall c tbl, Cand c -> tried i ms tbl -> getMapMatch (R := key_order) c tbl = "")
    as Hno.
  { intros c tbl -> [->|(m & Hm & ->)]; [vm_compute; reflexivity|].
    apply list_elem_of_singleton in Hm as ->. vm_compute; reflexivity. }
  split; [exact Hparent|]. split; [exact Hms|]. split; [exact Habs|].
  split; [vm_compute; reflexivity|]. split; [exact Hclosed|]. split; [exact Hno|].
  split.
  - exact (ResolveWithParent_unmatched (R := key_order) i "./y.js" parent _ ms c0 Cand
             Hparent Hms Habs eq_refl (fun _ => Hclosed) Hno).
  - assert (forall c tbl, c = "react" -> tried i ms tbl ->
            getMapMatch (R := key_order) c tbl = "") as Hno'.
    { intros c tbl -> [->|(m & Hm & ->)]; [vm_compute; reflexivity|].
      apply list_elem_of_singleton in Hm as ->. vm_compute; reflexivity. }
    exact (ResolveWithParent_unmatched (R := key_order) i "react" parent _ ms "react"
             (fun c => c = "react") Hparent Hms eq_refl eq_refl
             (fun H => False_ind _ (eq_ind true (fun b => if b then True else False) I false H))
             Hno').
Defined.

(** * Further properties of the package *)

(** ** Classification of specifiers ([isRelative], [isUrl], [isPlain]) *)

Lemma Contains_cons (c : ascii) (s sep : string) :
  strings.Contains (String c s) sep = false -> strings.Contains s sep = false.
Proof.
  unfold strings.Contains. rewrite !bool_decide_eq_false. intros H [n Hn]. apply H.
  simpl. destruct (strings.HasPrefix (String c s) sep); [by eexists|].
  rewrite Hn. by eexists.
Qed.

Lemma Contains_head (c : ascii) (s : string) :
  strings.Contains (String c s) ":" = false -> c <> ":"%char.
Proof.
  unfold strings.Contains. rewrite bool_decide_eq_false. intros H ->. apply H.
  simpl. by eexists.
Qed.

Lemma getScheme_from_no_colon (rest : string) (i : nat) (rawURL : string) :
  strings.Contains rest ":" = false -> getScheme_from rest i rawURL = inr ("", rawURL).
Proof.
  revert i; induction rest as [|c rest IH]; intros i Hc; simpl; [done|].
  pose proof (Contains_head _ _ Hc) as Hne. apply Contains_cons in Hc.
  destruct (isalpha c); [by apply IH|].
  destruct (isdigit c || byte_in c "+-."); [destruct (decide (i = 0)); [done | by apply IH]|].
  by rewrite decide_False.
Qed.

Lemma upto_no_slash (n : nat) (s : string) :
  strings.HasPrefix s "/" = false -> strings.HasPrefix (strings.upto n s) "/" = false.
Proof. destruct n, s; simpl; done. Qed.

(** A request URI without a scheme has to start with a slash. *)
Lemma parse_request_bare (s : string) :
  strings.HasPrefix s "/" = false -> strings.Contains s ":" = false -> s <> "*" ->
  exists e, parse s true = inl e.
Proof.
  intros Hslash Hcolon Hstar. unfold parse.
  destruct (stringContainsCTLByte s); [by eexists|].
  destruct (bool_decide (s = "") && true); [by eexists|].
  rewrite decide_False by done.
  unfold getScheme. rewrite getScheme_from_no_colon by done.
  cbn [mbind sum_bind strings.ToLower].
  destruct (strings.HasSuffix s "?" && bool_decide (strings.CountByte s "?" = 1)).
  - pose proof (upto_no_slash (strings.len s - 1) s Hslash) as ->. simpl. by eexists.
  - unfold strings.Cut. destruct (strings.Index s "?") as [n|].
    + pose proof (upto_no_slash n s Hslash) as ->. simpl. by eexists.
    + rewrite Hslash. simpl. by eexists.
Qed.

(** X1.  A specifier that does not start with [/], [./] or [../], holds no
    colon and is not [*] is plain: package names such as [react] or
    [@scope/pkg/file.js], and the empty specifier. *)
Theorem isPlain_bare (specifier : string) :
  isRelative specifier = false ->
  strings.Contains specifier ":" = false ->
  specifier <> "*" ->
  isPlain specifier = true.
Proof.
  intros Hrel Hcolon Hstar. unfold isPlain. rewrite Hrel. simpl.
  unfold isUrl, ParseRequestURI.
  destruct (parse_request_bare specifier) as [e ->]; try done.
  unfold isRelative in Hrel. by apply orb_false_iff in Hrel as [_ ?].
Qed.

Lemma isPlain_bare_witness :
  isRelative "@scope/pkg/file.js" = false
  /\ strings.Contains "@scope/pkg/file.js" ":" = false
  /\ "@scope/pkg/file.js" <> "*"
  /\ isPlain "@scope/pkg/file.js" = true.
Proof.
  assert (isRelative "@scope/pkg/file.js" = false) as H1 by (vm_compute; reflexivity).
  assert (strings.Contains "@scope/pkg/file.js" ":" = false) as H2 by (vm_compute; reflexivity).
  assert ("@scope/pkg/file.js" <> "*") as H3 by discriminate.
  split; [exact H1|]. split; [exact H2|]. split; [exact H3|].
  exact (isPlain_bare _ H1 H2 H3).
Defined.

(** ** Where the errors of a resolution come from *)

Lemma Parse_Err (s : string) (e : error) : Parse s = Err e -> fromUrl e.
Proof.
  unfold Parse. destruct (strings.Cut s "#") as [[u0 frag] found].
  destruct (parse u0 false) as [ue|u]; [intros [= <-]; right; by eexists _, _, _|].
  destruct (decide (frag = "")); [done|].
  destruct (setFragment u frag) as [ue|u']; [|done].
  intros [= <-]; right; by eexists _, _, _.
Qed.

Lemma JoinPath_Err (base : string) (elem : list string) (e : error) :
  JoinPath base elem = Err e -> fromUrl e.
Proof.
  unfold JoinPath. destruct (Parse base) as [u|e'|q] eqn:Hu; simpl; try done.
  intros [= <-]. by eapply Parse_Err.
Qed.

Lemma resolve_Err (inputUrl : string) (mapUrl rootUrl : option URL) (e : error) :
  resolve inputUrl mapUrl rootUrl = Err e -> fromUrl e.
Proof.
  unfold resolve. destruct (strings.HasPrefix inputUrl "/").
  - destruct rootUrl as [root|]; [|done].
    destruct (strings.at_index inputUrl 1) as [c| |] eqn:Hc; simpl; try done.
    + destruct (decide (c = "/"%char)); simpl.
      * unfold strings.slice_from. destruct (decide (1 <= strings.len inputUrl)); simpl;
          [apply JoinPath_Err | done].
      * apply JoinPath_Err.
    + unfold strings.at_index in Hc. by destruct (get 1 inputUrl).
  - destruct (Parse inputUrl) as [u|e'|q] eqn:Hu; simpl.
    + by destruct mapUrl.
    + intros [= <-]. by eapply Parse_Err.
    + done.
Qed.

Lemma rebase_Err (inputUrl : string) (baseUrl rootUrl : option URL) (e : error) :
  rebase inputUrl baseUrl rootUrl = Err e -> fromUrl e.
Proof.
  unfold rebase, strings.slice_from. destruct baseUrl as [base|]; [|intros [= <-]; by left].
  destruct (Parse inputUrl) as [u|e'|q] eqn:Hu; cbn [mbind result_bind];
    [|intros [= <-]; by eapply Parse_Err|done].
  cbv zeta. intros H. exfalso. repeat case_match; simplify_eq.
Qed.

Section Errors.
Context {R : RangeOrder}.

Lemma scopeCandidates_Err (keys : list string) (mapUrl rootUrl : option URL) (e : error) :
  scopeCandidates keys mapUrl rootUrl = Err e -> fromUrl e.
Proof.
  induction keys as [|k keys IH]; simpl; [done|].
  destruct (resolve k mapUrl rootUrl) as [u|e'|q] eqn:Hu; simpl;
    [|intros [= <-]; by eapply resolve_Err|done].
  destruct (scopeCandidates keys mapUrl rootUrl) as [rest|e'|q]; simpl; [done| |done].
  intros [= <-]. by apply IH.
Qed.

Lemma getScopeMatches_Err (parentUrl : string) (scopes : Scopes)
    (mapUrl rootUrl : option URL) (e : error) :
  getScopeMatches parentUrl scopes mapUrl rootUrl = Err e -> fromUrl e.
Proof.
  unfold getScopeMatches.
  destruct (scopeCandidates _ mapUrl rootUrl) as [c|e'|q] eqn:Hc; simpl; try done.
  intros [= <-]. by eapply scopeCandidates_Err.
Qed.

Lemma matchWithRetries_Err (i : importMap) (nonPlain : bool) (specifier : string)
    (tbl : gmap string string) (e : error) :
  matchWithRetries i nonPlain specifier tbl = Err e -> fromUrl e.
Proof.
  unfold matchWithRetries.
  destruct (bool_decide (getMapMatch specifier tbl = "") && nonPlain); [|done].
  destruct (rebase specifier (mapUrl i) (rootUrl i)) as [s1|e'|q] eqn:H1; simpl;
    [|intros [= <-]; by eapply rebase_Err|done].
  destruct (bool_decide (getMapMatch s1 tbl = "") && bool_decide (is_Some (rootUrl i)));
    [|done].
  destruct (rebase s1 (mapUrl i) None) as [s2|e'|q] eqn:H2; simpl;
    [done|intros [= <-]; by eapply rebase_Err|done].
Qed.

Lemma matchWithRetries_plain (i : importMap) (specifier : string) (tbl : gmap string string) :
  matchWithRetries i false specifier tbl = Ok (specifier, getMapMatch specifier tbl).
Proof. unfold matchWithRetries. by rewrite andb_false_r. Qed.

Lemma resolveMatch_Err (i : importMap) (tbl : gmap string string)
    (specifier mapMatch : string) (e : error) :
  resolveMatch i tbl specifier mapMatch = Err e -> fromUrl e.
Proof.
  unfold resolveMatch. unfold strings.slice_from.
  destruct (decide (strings.len mapMatch <= strings.len specifier)); simpl; [|done].
  apply resolve_Err.
Qed.

Lemma scopeLoop_Err (i : importMap) (nonPlain : bool) (ms : list scopeMatchTuple)
    (specifier : string) (e : error) :
  scopeLoop i nonPlain ms specifier = Err e -> fromUrl e.
Proof.
  revert specifier; induction ms as [|m ms IH]; intros specifier; simpl; [done|].
  destruct (matchWithRetries i nonPlain specifier _) as [[s1 k]|e'|q] eqn:H1; simpl;
    [|intros [= <-]; by eapply matchWithRetries_Err|done].
  destruct (negb (bool_decide (k = ""))); [|by apply IH].
  destruct (resolveMatch i _ s1 k) as [r|e'|q] eqn:H2; simpl;
    [done|intros [= <-]; by eapply resolveMatch_Err|done].
Qed.

(** X2.  [ResolveWithParent] reports a specifier as unresolvable only if
    it is plain, and the error then carries the specifier as it was passed
    in and the parent location as it was passed in.  Every other error of
    a resolution comes from parsing a URL (or from a map without declaring
    location). *)
Theorem ResolveWithParent_Err (i : importMap) (specifier : string)
    (parentUrl : option URL) (e : error) :
  ResolveWithParent i specifier parentUrl = Err e ->
  fromUrl e
  \/ exists parent, parentUrl = Some parent /\ isPlain specifier = true
                    /\ e = UnableToResolve specifier (String_ parent).
Proof.
  unfold ResolveWithParent. destruct parentUrl as [parent|]; [|done].
  destruct (resolve (String_ parent) (mapUrl i) (rootUrl i)) as [p|e'|q] eqn:Hp; simpl;
    [|intros [= <-]; left; by eapply resolve_Err|done].
  destruct (isPlain specifier) eqn:Hplain; simpl.
  - destruct (getScopeMatches p _ _ _) as [ms|e'|q] eqn:Hms; simpl;
      [|intros [= <-]; left; by eapply getScopeMatches_Err|done].
    destruct (scopeLoop i false ms specifier) as [[r|s1]|e'|q] eqn:Hloop; simpl;
      [done| |intros [= <-]; left; by eapply scopeLoop_Err|done].
    assert (s1 = specifier) as ->.
    { clear -Hloop. revert Hloop. induction ms as [|m ms IH]; simpl; [by intros [= ->]|].
      rewrite matchWithRetries_plain. simpl.
      destruct (negb (bool_decide (getMapMatch specifier _ = ""))); [|done].
      by destruct (resolveMatch i _ specifier _). }
    rewrite matchWithRetries_plain. simpl.
    destruct (negb (bool_decide (getMapMatch specifier (imports i) = ""))).
    + intros H. left. by eapply resolveMatch_Err.
    + intros [= <-]. right. by exists parent.
  - destruct (Parse specifier) as [u|e'|q] eqn:Hu; simpl;
      [|intros [= <-]; left; by eapply Parse_Err|done].
    destruct (getScopeMatches p _ _ _) as [ms|e'|q] eqn:Hms; simpl;
      [|intros [= <-]; left; by eapply getScopeMatches_Err|done].
    destruct (scopeLoop i true ms _) as [[r|s1]|e'|q] eqn:Hloop; simpl;
      [done| |intros [= <-]; left; by eapply scopeLoop_Err|done].
    destruct (matchWithRetries i true s1 (imports i)) as [[s2 k]|e'|q] eqn:Hm; simpl;
      [|intros [= <-]; left; by eapply matchWithRetries_Err|done].
    destruct (negb (bool_decide (k = ""))); [|done].
    intros H. left. by eapply resolveMatch_Err.
Qed.

End Errors.

Lemma ResolveWithParent_Err_witness :
  let parent := parsed "https://another.com/x" in
  let e := UnableToResolve "react" "https://another.com/x" in
  ResolveWithParent (R := key_order) test_map_value "react" (Some parent) = Err e
  /\ (fromUrl e
      \/ exists parent', Some parent = Some parent' /\ isPlain "react" = true
                         /\ e = UnableToResolve "react" (String_ parent')).
Proof.
  intros parent e.
  assert (ResolveWithParent (R := key_order) test_map_value "react" (Some parent) = Err e)
    as H by (vm_compute; reflexivity).
  split; [exact H|]. exact (ResolveWithParent_Err _ _ _ _ H).
Defined.

(** ** Resolutions that find an entry *)

Lemma from_len (s : string) : strings.from (strings.len s) s = "".
Proof. induction s as [|c s IH]; simpl; done. Qed.

Lemma append_empty_r (s : string) : s +:+ "" = s.
Proof. induction s as [|c s IH]; [done|]. change (String c (s +:+ "") = String c s). by rewrite IH. Qed.

Lemma upto_app (s t : string) : strings.upto (strings.len s) (s +:+ t) = s.
Proof.
  induction s as [|c s IH]; simpl; [done|].
  change (String c (strings.upto (strings.len s) (s +:+ t)) = String c s). by rewrite IH.
Qed.

Lemma HasPrefix_refl (s : string) : strings.HasPrefix s s = true.
Proof. apply HasPrefix_spec. exists "". by rewrite append_empty_r. Qed.

(** The entry under an exact key resolves to its target. *)
Lemma resolveMatch_exact (i : importMap) (tbl : gmap string string) (specifier t : string) :
  tbl !! specifier = Some t ->
  resolveMatch i tbl specifier specifier = resolve t (mapUrl i) (rootUrl i).
Proof.
  intros Ht. unfold resolveMatch, strings.slice_from. rewrite Ht, decide_True by done.
  cbn [mbind result_bind default]. by rewrite from_len, append_empty_r.
Qed.

Section Matched.
Context {R : RangeOrder}.

Lemma getMapMatch_exact {T} (specifier : string) (tbl : gmap string T) :
  is_Some (tbl !! specifier) -> getMapMatch specifier tbl = specifier.
Proof. intros [v Hv]. unfold getMapMatch. by rewrite Hv. Qed.

(** The loop over the scope matches for a plain specifier: the scopes
    that do not map it are passed over. *)
Lemma scopeLoop_plain_skip (i : importMap) (ms1 ms2 : list scopeMatchTuple) (specifier : string) :
  (forall m, m ∈ ms1 ->
     getMapMatch specifier (default ∅ (scopes i !! First m) : gmap string string) = "") ->
  scopeLoop i false (ms1 ++ ms2) specifier = scopeLoop i false ms2 specifier.
Proof.
  induction ms1 as [|m ms1 IH]; intros Hno; [done|].
  cbn [app scopeLoop]. rewrite matchWithRetries_plain. cbn [mbind result_bind].
  rewrite (Hno m) by left. cbn [bool_decide negb]. rewrite bool_decide_eq_true_2 by done.
  cbn [negb]. apply IH. intros m' Hm'. apply Hno. by right.
Qed.

(** The first scope of the list whose table has the plain specifier as a
    key ends the loop with the entry resolved. *)
Lemma scopeLoop_first_entry (i : importMap) (ms1 ms2 : list scopeMatchTuple)
    (m : scopeMatchTuple) (specifier : string) (tbl : gmap string string) (t : string) :
  (forall m', m' ∈ ms1 ->
     getMapMatch specifier (default ∅ (scopes i !! First m') : gmap string string) = "") ->
  scopes i !! First m = Some tbl ->
  tbl !! specifier = Some t ->
  specifier <> "" ->
  scopeLoop i false (ms1 ++ m :: ms2) specifier
    = r ← resolve t (mapUrl i) (rootUrl i); Ok (inl r).
Proof.
  intros Hno Htbl Ht Hne. rewrite scopeLoop_plain_skip by done.
  cbn [scopeLoop]. rewrite matchWithRetries_plain. cbn [mbind result_bind].
  rewrite Htbl. cbn [default]. rewrite getMapMatch_exact by (by eexists).
  rewrite (bool_decide_eq_false_2 (specifier = "")) by done. cbn [negb].
  by rewrite (resolveMatch_exact _ _ _ t).
Qed.

(** X4.  Scopes come before the top-level imports, and the shorter scope
    before the longer: the first scope of the match list whose table has
    the plain specifier as a key decides the resolution.  The scopes after
    it (those with a longer, more specific location) and the top-level
    imports are not consulted. *)
Theorem ResolveWithParent_first_scope (i : importMap) (specifier : string) (parent : URL)
    (parentUrlRaw : string) (ms1 ms2 : list scopeMatchTuple) (m : scopeMatchTuple)
    (tbl : gmap string string) (t : string) :
  isPlain specifier = true ->
  resolve (String_ parent) (mapUrl i) (rootUrl i) = Ok parentUrlRaw ->
  getScopeMatches parentUrlRaw (scopes i) (mapUrl i) (rootUrl i) = Ok (ms1 ++ m :: ms2)%list ->
  (forall m', m' ∈ ms1 ->
     getMapMatch specifier (default ∅ (scopes i !! First m') : gmap string string) = "") ->
  scopes i !! First m = Some tbl ->
  tbl !! specifier = Some t ->
  specifier <> "" ->
  ResolveWithParent i specifier (Some parent) = resolve t (mapUrl i) (rootUrl i).
Proof.
  intros Hplain Hparent Hms Hno Htbl Ht Hne. unfold ResolveWithParent.
  rewrite Hparent, Hplain. cbn [mbind result_bind negb]. rewrite Hms.
  cbn [mbind result_bind]. rewrite (scopeLoop_first_entry _ _ _ _ _ tbl t) by done.
  by destruct (resolve t (mapUrl i) (rootUrl i)).
Qed.

(** The same when no matching scope maps the specifier and the top-level
    imports have it as a key. *)
Lemma ResolveWithParent_top_level (i : importMap) (specifier : string) (parent : URL)
    (parentUrlRaw : string) (ms : list scopeMatchTuple) (t : string) :
  isPlain specifier = true ->
  resolve (String_ parent) (mapUrl i) (rootUrl i) = Ok parentUrlRaw ->
  getScopeMatches parentUrlRaw (scopes i) (mapUrl i) (rootUrl i) = Ok ms ->
  (forall m, m ∈ ms ->
     getMapMatch specifier (default ∅ (scopes i !! First m) : gmap string string) = "") ->
  imports i !! specifier = Some t ->
  specifier <> "" ->
  ResolveWithParent i specifier (Some parent) = resolve t (mapUrl i) (rootUrl i).
Proof.
  intros Hplain Hparent Hms Hno Ht Hne. unfold ResolveWithParent.
  rewrite Hparent, Hplain. cbn [mbind result_bind negb]. rewrite Hms.
  cbn [mbind result_bind].
  rewrite <- (app_nil_r ms), scopeLoop_plain_skip by done.
  cbn [scopeLoop mbind result_bind]. rewrite matchWithRetries_plain. cbn [mbind result_bind].
  rewrite getMapMatch_exact by (by eexists).
  rewrite (bool_decide_eq_false_2 (specifier = "")) by done. cbn [negb].
  by apply resolveMatch_exact.
Qed.

(** X3.  What [Set] stores, a resolution finds.  On a receiver whose
    imports table is [nil] (a map that [New] built from data without
    imports) [Set] panics.  On any other receiver [Set(name, target)]
    returns, and with a plain name, resolving that name from a parent none
    of whose scopes maps it then gives the target, resolved under the pair
    of the map. *)
Theorem Set_then_ResolveWithParent (i : importMap) (name target : string) (parent : URL)
    (parentUrlRaw : string) (ms : list scopeMatchTuple) :
  isPlain name = true ->
  name <> "" ->
  resolve (String_ parent) (mapUrl i) (rootUrl i) = Ok parentUrlRaw ->
  getScopeMatches parentUrlRaw (scopes i) (mapUrl i) (rootUrl i) = Ok ms ->
  (forall m, m ∈ ms ->
     getMapMatch name (default ∅ (scopes i !! First m) : gmap string string) = "") ->
  if is_nil (imports_ i) then Set_ i name target = Panic AssignmentToNilMap
  else exists i', Set_ i name target = Ok i'
                  /\ ResolveWithParent i' name (Some parent)
                     = resolve target (mapUrl i) (rootUrl i).
Proof.
  intros Hplain Hne Hparent Hms Hno. unfold Set_.
  destruct (imports_ i) as [|tbl]; cbn [is_nil assign mbind result_bind]; [done|].
  set (i' := ImportMap (made (<[name := target]> tbl)) (scopes_ i) (integrity_ i)
                       (mapUrl i) (rootUrl i)).
  exists i'. split; [done|].
  apply (ResolveWithParent_top_level i' name parent parentUrlRaw ms target); try done.
  apply lookup_insert_eq.
Qed.

End Matched.

Section MatchedOrdered.
Context {R : RangeOrder}.
Hypothesis R_ok : RangeOrderOk R.

Lemma prefixKey_self_slash (s : string) : prefixKey s (s +:+ "/") = true.
Proof.
  unfold prefixKey. apply andb_true_iff. split.
  - apply orb_true_iff. left. apply HasSuffix_spec. by exists s.
  - rewrite len_app. replace (strings.len s + strings.len "/" - 1) with (strings.len s)
      by (simpl; lia).
    rewrite upto_app. apply HasPrefix_refl.
Qed.

(** A key that is the specifier with a slash appended is a prefix key of
    it, and one byte longer than the specifier itself. *)
Lemma getMapMatch_longer {T} (s : string) (tbl : gmap string T) :
  tbl !! s = None -> is_Some (tbl !! (s +:+ "/")) ->
  strings.len s < strings.len (getMapMatch s tbl).
Proof.
  intros Hs Hk. unfold getMapMatch. rewrite Hs.
  destruct (getMapMatch_loop s (range_order tbl) "" (or_introl eq_refl))
    as (r & -> & _ & _ & _ & Hmax & _).
  specialize (Hmax (s +:+ "/")). rewrite len_app in Hmax. simpl in Hmax.
  assert (strings.len s + 1 <= strings.len r); [|lia].
  apply Hmax; [by apply (R_ok _ tbl) | apply prefixKey_self_slash].
Qed.

(** X5.  A plain specifier that is a prefix key of the top-level imports
    without its closing slash (the specifier [lib] with the key [lib/]),
    and that nothing else maps, makes [ResolveWithParent] panic: the match
    is a key longer than the specifier, and the code takes
    [specifier[len(mapMatch):]]. *)
Theorem ResolveWithParent_panics_on_bare_prefix (i : importMap) (specifier : string)
    (parent : URL) (parentUrlRaw : string) (ms : list scopeMatchTuple) :
  isPlain specifier = true ->
  resolve (String_ parent) (mapUrl i) (rootUrl i) = Ok parentUrlRaw ->
  getScopeMatches parentUrlRaw (scopes i) (mapUrl i) (rootUrl i) = Ok ms ->
  (forall m, m ∈ ms ->
     getMapMatch specifier (default ∅ (scopes i !! First m) : gmap string string) = "") ->
  imports i !! specifier = None ->
  is_Some (imports i !! (specifier +:+ "/")) ->
  ResolveWithParent i specifier (Some parent) = Panic SliceBoundsOutOfRange.
Proof.
  intros Hplain Hparent Hms Hno Hs Hk. unfold ResolveWithParent.
  rewrite Hparent, Hplain. cbn [mbind result_bind negb]. rewrite Hms.
  cbn [mbind result_bind].
  rewrite <- (app_nil_r ms), scopeLoop_plain_skip by done.
  cbn [scopeLoop mbind result_bind]. rewrite matchWithRetries_plain. cbn [mbind result_bind].
  pose proof (getMapMatch_longer specifier (imports i) Hs Hk) as Hlen.
  rewrite bool_decide_eq_false_2.
  - cbn [negb]. unfold resolveMatch, strings.slice_from.
    rewrite decide_False by lia. done.
  - intros Heq. rewrite Heq in Hlen. simpl in Hlen. lia.
Qed.

Lemma enumerates_singleton {V} (l : list string) (k : string) (v : V) :
  enumerates l (<[k := v]> (∅ : gmap string V)) -> l = [k].
Proof.
  intros [Hnodup Hkeys]. apply Permutation_singleton_r, NoDup_Permutation; [done|..].
  - apply NoDup_singleton.
  - intros x. rewrite Hkeys, list_elem_of_singleton, lookup_insert_is_Some, lookup_empty.
    split; [intros [->|[_ [? ?]]]; done | intros ->; by left].
Qed.

(** X12.  What [SetWithParent] stores in a fresh scope, a resolution from
    under that scope finds.  Take a map without scopes.  If its scopes
    table is [nil] (a map that [New] built from data without scopes),
    [SetWithParent] panics.  If the table is allocated,
    [SetWithParent(name, target, scope)] returns, and with a plain name,
    resolving the name from a parent that the scope covers then gives the
    target, resolved under the pair of the map; the top-level imports do
    not matter. *)
Theorem SetWithParent_then_ResolveWithParent (i : importMap) (name target scope : string)
    (parent : URL) (parentUrlRaw scopeUrl : string) :
  scopes i = ∅ ->
  isPlain name = true ->
  name <> "" ->
  resolve (String_ parent) (mapUrl i) (rootUrl i) = Ok parentUrlRaw ->
  resolve scope (mapUrl i) (rootUrl i) = Ok scopeUrl ->
  scopeMatches_keep parentUrlRaw (mkTuple scope scopeUrl) = true ->
  if is_nil (scopes_ i) then SetWithParent i name target scope = Panic AssignmentToNilMap
  else exists i', SetWithParent i name target scope = Ok i'
                  /\ ResolveWithParent i' name (Some parent)
                     = resolve target (mapUrl i) (rootUrl i).
Proof.
  intros Hscopes Hplain Hne Hparent Hscope Hkeep.
  unfold SetWithParent. rewrite Hscopes, lookup_empty. unfold scopes in Hscopes.
  destruct (scopes_ i) as [|sc]; cbn [is_nil assign mbind result_bind]; [done|].
  cbn [entries] in Hscopes. subst sc.
  cbn [entries in_place]. rewrite lookup_insert_eq. cbn [default].
  rewrite insert_insert_eq.
  set (i' := ImportMap (imports_ i) (made (<[scope := <[name := target]> ∅]> ∅))
                       (integrity_ i) (mapUrl i) (rootUrl i)).
  exists i'. split; [done|].
  assert (getScopeMatches parentUrlRaw (scopes i') (mapUrl i) (rootUrl i)
          = Ok [mkTuple scope scopeUrl]) as Hms.
  { unfold getScopeMatches. cbn [scopes i' scopes_ entries].
    rewrite (enumerates_singleton _ scope (<[name := target]> ∅) (R_ok _ _)).
    cbn [scopeCandidates]. rewrite Hscope. cbn [mbind result_bind].
    change (merge_sort by_length [mkTuple scope scopeUrl]) with [mkTuple scope scopeUrl].
    by rewrite filter_cons, decide_True by done. }
  unfold ResolveWithParent. change (mapUrl i') with (mapUrl i).
  change (rootUrl i') with (rootUrl i).
  rewrite Hparent, Hplain. cbn [mbind result_bind negb]. rewrite Hms.
  cbn [mbind result_bind].
  assert (scopeLoop i' false [mkTuple scope scopeUrl] name
          = r ← resolve target (mapUrl i) (rootUrl i); Ok (inl r)) as Hloop.
  { apply (scopeLoop_first_entry i' [] []
             (mkTuple scope scopeUrl) name {[ name := target ]} target).
    - intros m' Hm'. by apply not_elem_of_nil in Hm'.
    - cbn [scopes i' scopes_ entries First]. apply lookup_insert_eq.
    - apply lookup_insert_eq.
    - done. }
  rewrite bool_decide_eq_false_2 by (intros [? ?]; done). rewrite Hloop.
  by destruct (resolve target (mapUrl i) (rootUrl i)).
Qed.

End MatchedOrdered.

(** ** The order in which a resolution tries the scopes *)

(** A table that matches the working specifier at the first attempt ends
    the retries there. *)
Lemma matchWithRetries_matched {R : RangeOrder} (i : importMap) (nonPlain : bool)
    (c : string) (tbl : gmap string string) :
  getMapMatch c tbl <> "" ->
  matchWithRetries i nonPlain c tbl = Ok (c, getMapMatch c tbl).
Proof.
  intros Hmatch. unfold matchWithRetries. cbv zeta.
  by rewrite (bool_decide_eq_false_2 _ Hmatch).
Qed.

Section ScopeOrder.
Context {R : RangeOrder}.
Variables (i : importMap) (nonPlain : bool) (Cand : string -> Prop).

(** The candidates stay in [Cand] through the retries. *)
Hypothesis Cand_rebase : nonPlain = true ->
  forall c, Cand c -> forall root, root = rootUrl i \/ root = None ->
  exists c', rebase c (mapUrl i) root = Ok c' /\ Cand c'.

(** The loop passes over the scopes at the head of the list whose tables
    match no candidate, and reaches the next scope with a candidate [c1]
    as its working specifier: the one it started with if the specifier is
    plain or no scope was passed over.  If the table of that scope matches
    [c1], the loop ends there. *)
Lemma scopeLoop_reaches (ms1 ms2 : list scopeMatchTuple) (m : scopeMatchTuple)
    (c : string) (tbl : gmap string string) :
  Cand c ->
  (forall c' m', Cand c' -> m' ∈ ms1 ->
     getMapMatch c' (default ∅ (scopes i !! First m') : gmap string string) = "") ->
  scopes i !! First m = Some tbl ->
  exists c1, Cand c1
    /\ (nonPlain = false \/ ms1 = [] -> c1 = c)
    /\ (getMapMatch c1 tbl <> "" ->
        scopeLoop i nonPlain (ms1 ++ m :: ms2) c
        = r ← resolveMatch i tbl c1 (getMapMatch c1 tbl); Ok (inl r)).
Proof.
  revert c; induction ms1 as [|m0 ms1 IH]; intros c Hc Hno Htbl.
  - exists c. split_and!; [done..|]. intros Hmatch.
    cbn [app scopeLoop]. rewrite Htbl. cbn [default].
    rewrite matchWithRetries_matched by done. cbn [mbind result_bind].
    by rewrite (bool_decide_eq_false_2 _ Hmatch).
  - destruct (matchWithRetries_unmatched i nonPlain Cand Cand_rebase c
                (default ∅ (scopes i !! First m0)) Hc) as (c' & Hrun & Hc' & Heq).
    { intros c2 Hc2. apply Hno; [done | left]. }
    destruct (IH c' Hc') as (c1 & Hc1 & Heq1 & Hend); [|done|].
    { intros c2 m' Hc2 Hm'. apply Hno; [done | by right]. }
    exists c1. split_and!; [done| |].
    + intros [Hnp|?]; [|done]. rewrite Heq1 by (by left). by apply Heq.
    + intros Hmatch. cbn [app scopeLoop]. rewrite Hrun. cbn [mbind result_bind].
      rewrite bool_decide_eq_true_2 by done. cbn [negb]. by apply Hend.
Qed.

End ScopeOrder.

Section ScopeOrderOrdered.
Context {R : RangeOrder}.
Hypothesis R_ok : RangeOrderOk R.

(** C4.  A resolution from the parent location [parent], in a map all of
    whose scope keys resolve under the map's own [(mapUrl, rootUrl)], works
    on the scope-match set [ms] that [getScopeMatches] returns for the
    canonical parent location.  The set holds a scope (with its absolute
    location [u]) exactly when [u] equals the canonical parent location, or
    [u] ends in [/] and is a string-prefix of it; no scope is listed
    twice; and the list is in ascending order of the length of the
    absolute locations.  [ResolveWithParent] tries the scopes in the order
    of that list: when the tables of the scopes [ms1] at its head match
    none of the forms [Cand] of the specifier (its working form [c0] and
    what the rebasing retries make of it), the resolution reaches the
    next scope [m] with a working specifier [c] among them, which is [c0]
    itself if the specifier is plain or [m] is the first scope of the
    list; and if the table of [m] matches [c], the entry of [m] is the
    result, whatever the scopes [ms2] behind [m] and the top-level imports
    hold. *)
Theorem ResolveWithParent_scope_order (i : importMap) (parent : URL) (parentUrlRaw : string) :
  (forall k, is_Some (scopes i !! k) -> is_Ok (resolve k (mapUrl i) (rootUrl i))) ->
  resolve (String_ parent) (mapUrl i) (rootUrl i) = Ok parentUrlRaw ->
  exists ms, getScopeMatches parentUrlRaw (scopes i) (mapUrl i) (rootUrl i) = Ok ms
    /\ (forall s u, mkTuple s u ∈ ms <->
          is_Some (scopes i !! s)
          /\ resolve s (mapUrl i) (rootUrl i) = Ok u
          /\ (u = parentUrlRaw
              \/ (strings.HasSuffix u "/" = true
                  /\ strings.HasPrefix parentUrlRaw u = true)))
    /\ NoDup (First <$> ms)
    /\ StronglySorted by_length ms
    /\ (forall (specifier c0 : string) (Cand : string -> Prop)
               (ms1 ms2 : list scopeMatchTuple) (m : scopeMatchTuple)
               (tbl : gmap string string),
          absoluteForm parent specifier = Ok c0 ->
          Cand c0 ->
          (isPlain specifier = false ->
           forall c, Cand c -> forall root, root = rootUrl i \/ root = None ->
           exists c', rebase c (mapUrl i) root = Ok c' /\ Cand c') ->
          ms = (ms1 ++ m :: ms2)%list ->
          (forall c m', Cand c -> m' ∈ ms1 ->
             getMapMatch c (default ∅ (scopes i !! First m') : gmap string string) = "") ->
          scopes i !! First m = Some tbl ->
          exists c, Cand c
            /\ (isPlain specifier = true \/ ms1 = [] -> c = c0)
            /\ (getMapMatch c tbl <> "" ->
                ResolveWithParent i specifier (Some parent)
                = resolveMatch i tbl c (getMapMatch c tbl))).
Proof.
  intros Hres Hparent.
  destruct (getScopeMatches_spec R_ok parentUrlRaw (scopes i) (mapUrl i) (rootUrl i) Hres)
    as (ms & Hms & Hmem & Hnodup & Hsorted).
  exists ms. split_and!; [done..|].
  intros specifier c0 Cand ms1 ms2 m tbl Habs Hc0 Hclosed -> Hno Htbl.
  unfold ResolveWithParent, absoluteForm in *. rewrite Hparent. cbn [mbind result_bind].
  destruct (isPlain specifier) eqn:Hplain; cbn [negb].
  - injection Habs as <-. cbn [mbind result_bind]. rewrite Hms. cbn [mbind result_bind].
    destruct (scopeLoop_reaches i false Cand) with (ms1 := ms1) (ms2 := ms2) (m := m)
      (c := specifier) (tbl := tbl) as (c & Hc & Heq & Hend); [done..|].
    exists c. split_and!; [done| |].
    + intros _. apply Heq. by left.
    + intros Hmatch. rewrite bool_decide_eq_false_2 by (intros [? ?]; done).
      rewrite (Hend Hmatch).
      by destruct (resolveMatch i tbl c (getMapMatch c tbl)).
  - destruct (Parse specifier) as [u| |]; cbn [mbind result_bind] in *; try done.
    injection Habs as <-. rewrite Hms. cbn [mbind result_bind].
    destruct (scopeLoop_reaches i true Cand) with (ms1 := ms1) (ms2 := ms2) (m := m)
      (c := String_ (ResolveReference parent u)) (tbl := tbl)
      as (c & Hc & Heq & Hend); [by intros _; apply Hclosed|done..|].
    exists c. split_and!; [done| |].
    + intros [?|Hnil]; [done|]. apply Heq. by right.
    + intros Hmatch. rewrite bool_decide_eq_true_2 by (by eexists).
      rewrite (Hend Hmatch).
      by destruct (resolveMatch i tbl c (getMapMatch c tbl)).
Qed.

End ScopeOrderOrdered.

(** ** What [Rebase] does to the tables *)

Section RebaseTables.
Context {R : RangeOrder}.
Hypothesis R_ok : RangeOrderOk R.

Lemma rebaseImport_plain_None (i : importMap) (mapUrl' rootUrl' : option URL)
    (keys : list string) (tbl tbl' : gmap string string) (k : string) :
  (forall k', k' ∈ keys -> isPlain k' = true) ->
  range_keys (rebaseImport i mapUrl' rootUrl') keys tbl = Ok tbl' ->
  tbl !! k = None -> tbl' !! k = None.
Proof.
  revert tbl; induction keys as [|k0 keys IH]; intros tbl Hplain Hrun Hk.
  { simpl in Hrun. by injection Hrun as <-. }
  assert (forall k', k' ∈ keys -> isPlain k' = true) as Hplain'.
  { intros k' Hk'. apply Hplain. by right. }
  cbn [range_keys] in Hrun. destruct (tbl !! k0) as [v|] eqn:Hv; [|by eapply IH].
  destruct (rebaseImport i mapUrl' rootUrl' k0 v tbl) as [tbl0| |] eqn:Hbody; try done.
  cbn [mbind result_bind] in Hrun. unfold rebaseImport in Hbody.
  rewrite (Hplain k0) in Hbody by left.
  destruct (resolve v (mapUrl i) (rootUrl i)) as [r| |]; try done.
  cbn [mbind result_bind] in Hbody.
  destruct (rebase r (mapUrl i) (rootUrl i)) as [t0| |]; try done.
  cbn [mbind result_bind negb] in Hbody. injection Hbody as <-.
  eapply IH; [done..|]. rewrite lookup_insert_ne; [done|]. congruence.
Qed.

(** X8.  Relocation keeps a table of plain keys in place when its targets
    are canonical: if every key of the top-level imports is plain and
    every target is its own canonical form under the pair of the map, a
    successful [Rebase], to whatever new pair, returns the imports as they
    were. *)
Theorem Rebase_canonical_imports (i i' : importMap) (mapUrl' rootUrl' : option URL) :
  (forall k, is_Some (imports i !! k) -> isPlain k = true) ->
  (forall k t, imports i !! k = Some t -> canonical i t = Ok t) ->
  Rebase i mapUrl' rootUrl' = Ok i' ->
  imports i' = imports i.
Proof.
  intros Hplain Hcanon Hrun. apply map_eq. intros k.
  destruct (imports i !! k) as [t|] eqn:Hk.
  - destruct (Rebase_plain_imports i i' mapUrl' rootUrl' R_ok Hplain Hrun k t Hk)
      as (t' & Ht' & ->).
    unfold canonical in Hcanon. rewrite (Hcanon k t Hk) in Ht'. congruence.
  - apply Rebase_Ok in Hrun as (m & -> & Him & _).
    eapply rebaseImport_plain_None; [|exact Him|done].
    intros k' Hk'. apply Hplain. by apply (R_ok _ (imports i)).
Qed.

(** X9.  [Extend] lets the entries of the other map win: when all the
    top-level keys of both maps are plain, a key of the other map ends up
    in the receiver with the other map's target, taken as it is written
    and brought into canonical form under the pair of the receiver. *)
Theorem Extend_other_wins (i other i' : importMap) (overrideScopes : bool) (k t : string) :
  (forall k', is_Some (imports i !! k') -> isPlain k' = true) ->
  (forall k', is_Some (imports other !! k') -> isPlain k' = true) ->
  Extend i other overrideScopes = Ok i' ->
  imports other !! k = Some t ->
  exists t', canonical i t = Ok t' /\ imports i' !! k = Some t'.
Proof.
  intros Hi Ho Hrun Hk.
  apply Extend_Ok in Hrun as (i0 & Himports & _ & _ & Hmap & Hroot & Hrun).
  eapply (Rebase_plain_imports _ i' _ _ R_ok) in Hrun as (t' & Ht' & Hk').
  - exists t'. unfold canonical. rewrite <- Hmap, <- Hroot. split; [exact Ht' | exact Hk'].
  - rewrite Himports. intros k' [v [Hv|[_ Hv]]%lookup_union_Some_raw]; [apply Ho|apply Hi];
      by eexists.
  - rewrite Himports. apply lookup_union_Some_raw. by left.
Qed.

(** The receiver keeps its own entries under the keys that the other map
    does not have. *)
Lemma Extend_own_kept (i other i' : importMap) (overrideScopes : bool) (k t : string) :
  (forall k', is_Some (imports i !! k') -> isPlain k' = true) ->
  (forall k', is_Some (imports other !! k') -> isPlain k' = true) ->
  Extend i other overrideScopes = Ok i' ->
  imports other !! k = None -> imports i !! k = Some t ->
  exists t', canonical i t = Ok t' /\ imports i' !! k = Some t'.
Proof.
  intros Hi Ho Hrun Hk Hk'.
  apply Extend_Ok in Hrun as (i0 & Himports & _ & _ & Hmap & Hroot & Hrun).
  eapply (Rebase_plain_imports _ i' _ _ R_ok) in Hrun as (t' & Ht' & Hk'').
  - exists t'. unfold canonical. rewrite <- Hmap, <- Hroot. split; [exact Ht' | exact Hk''].
  - rewrite Himports. intros k' [v [Hv|[_ Hv]]%lookup_union_Some_raw]; [apply Ho|apply Hi];
      by eexists.
  - rewrite Himports. apply lookup_union_Some_raw. by right.
Qed.

(** One round of the integrity loop on an entry whose value is not a key:
    the entry is left with the empty string. *)
Lemma rebaseIntegrity_blank_step (i : importMap) (k v : string)
    (tbl tbl0 : gmap string string) :
  tbl !! k = Some v -> tbl !! v = None ->
  rebaseIntegrity i k v tbl = Ok tbl0 ->
  forall k', tbl0 !! k' = if decide (k' = k) then Some "" else tbl !! k'.
Proof.
  intros Hk Hv Hbody k'. unfold rebaseIntegrity in Hbody.
  destruct (resolve v (mapUrl i) (rootUrl i)) as [r| |]; try done.
  cbn [mbind result_bind] in Hbody.
  destruct (rebase r (mapUrl i) (rootUrl i)) as [t0| |]; try done.
  cbn [mbind result_bind] in Hbody.
  assert (k <> v) as Hne by congruence.
  rewrite decide_True in Hbody by done. injection Hbody as <-.
  rewrite (lookup_insert_ne _ k v) by done. rewrite Hv. cbn [default].
  destruct (decide (k' = k)) as [->|Hne'].
  - rewrite lookup_delete_ne by done. by rewrite lookup_insert_eq.
  - destruct (decide (k' = v)) as [->|Hne''].
    + by rewrite lookup_delete_eq.
    + rewrite lookup_delete_ne by done. by rewrite !lookup_insert_ne by done.
Qed.

Lemma rebaseIntegrity_blank (i : importMap) (keys : list string)
    (tbl tbl' : gmap string string) :
  NoDup keys ->
  (forall k v, k ∈ keys -> tbl !! k = Some v -> tbl !! v = None) ->
  range_keys (rebaseIntegrity i) keys tbl = Ok tbl' ->
  forall k, tbl' !! k = if decide (k ∈ keys) then (fun _ => "") <$> tbl !! k else tbl !! k.
Proof.
  revert tbl; induction keys as [|k0 keys IH]; intros tbl Hnodup Hval Hrun k.
  { simpl in Hrun. injection Hrun as <-. by rewrite decide_False by apply not_elem_of_nil. }
  apply NoDup_cons in Hnodup as [Hk0 Hnodup]. cbn [range_keys] in Hrun.
  destruct (tbl !! k0) as [v|] eqn:Hv.
  - destruct (rebaseIntegrity i k0 v tbl) as [tbl0| |] eqn:Hbody; try done.
    cbn [mbind result_bind] in Hrun.
    pose proof (rebaseIntegrity_blank_step i k0 v tbl tbl0 Hv
                  (Hval k0 v ltac:(left) Hv) Hbody) as Hstep.
    assert (forall k1 v1, k1 ∈ keys -> tbl0 !! k1 = Some v1 -> tbl0 !! v1 = None) as Hval0.
    { intros k1 v1 Hin H1. rewrite Hstep in H1 |- *.
      rewrite decide_False in H1 by (intros ->; done).
      assert (tbl !! v1 = None) as Hv1 by (eapply Hval; [by right | done]).
      rewrite decide_False; [done|]. intros ->. congruence. }
    rewrite (IH tbl0 Hnodup Hval0 Hrun k), Hstep.
    destruct (decide (k = k0)) as [->|Hne].
    + rewrite decide_False by done. rewrite decide_True by left. by rewrite Hv.
    + destruct (decide (k ∈ keys)) as [Hin|Hnin].
      * by rewrite decide_True by (by right).
      * rewrite decide_False; [done|]. by intros [?|?]%elem_of_cons.
  - assert (forall k1 v1, k1 ∈ keys -> tbl !! k1 = Some v1 -> tbl !! v1 = None) as Hval0.
    { intros k1 v1 Hin. apply Hval. by right. }
    rewrite (IH tbl Hnodup Hval0 Hrun k).
    destruct (decide (k = k0)) as [->|Hne].
    + rewrite decide_False by done. rewrite decide_True by left. by rewrite Hv.
    + destruct (decide (k ∈ keys)) as [Hin|Hnin].
      * by rewrite decide_True by (by right).
      * rewrite decide_False; [done|]. by intros [?|?]%elem_of_cons.
Qed.

(** X6.  A successful [Rebase] wipes the integrity table: when no stored
    hash is itself a key of the table (as with real hashes), every entry
    keeps its key and is left with the empty string as its value. *)
Theorem Rebase_blanks_integrity (i i' : importMap) (mapUrl' rootUrl' : option URL) :
  (forall k v, integrity i !! k = Some v -> integrity i !! v = None) ->
  Rebase i mapUrl' rootUrl' = Ok i' ->
  integrity i' = (fun _ => "") <$> integrity i.
Proof.
  intros Hval Hrun. apply Rebase_Ok in Hrun as (m & -> & _ & _ & Hig & _).
  apply map_eq. intros k.
  destruct (R_ok _ (integrity i)) as [Hnodup Hkeys].
  rewrite (rebaseIntegrity_blank i _ _ _ Hnodup (fun k v _ => Hval k v) Hig k).
  rewrite lookup_fmap. destruct (decide (k ∈ range_order (integrity i))) as [|Hnin]; [done|].
  destruct (integrity i !! k) eqn:Hk; [|done].
  exfalso. apply Hnin, Hkeys. by eexists.
Qed.

End RebaseTables.

(** X7.  The root after a relocation with no root given, when the map
    moves to a different declaring location: a map without root stays
    without root, a map that moves to a location that is neither [http]
    nor [https] loses its root, and otherwise the root is the origin of the
    new location.  A root that the caller gives is taken as it is. *)
Theorem Rebase_root {R : RangeOrder} (i i' : importMap) (old m : URL)
    (rootUrl' : option URL) :
  mapUrl i = Some old ->
  Rebase i (Some m) rootUrl' = Ok i' ->
  mapUrl i' = Some m
  /\ (is_Some rootUrl' -> rootUrl i' = rootUrl')
  /\ (rootUrl' = None -> String_ m <> String_ old ->
      rootUrl i' =
        if bool_decide (rootUrl i = None)
           || negb (bool_decide (Scheme m = "https") || bool_decide (Scheme m = "http"))
        then None
        else Some (ResolveReference m (with_path empty "/" ""))).
Proof.
  intros Hold (m' & [= <-] & Hm & Hroot)%Rebase_locations.
  split; [done|]. rewrite Hroot. unfold inferRoot. split.
  - by intros [r ->].
  - intros -> Hne. rewrite Hold, decide_False by done.
    by destruct (bool_decide (rootUrl i = None)), (bool_decide (Scheme m = "https")),
         (bool_decide (Scheme m = "http")).
Qed.

(** ** Canonical forms without a root *)

(** X13.  Under a map that has a declaring location and no root, a value
    that starts with a slash and parses as a URL is its own canonical
    form: [resolve] and [rebase] both return it as it is. *)
Theorem canonical_rootless (i : importMap) (t : string) :
  is_Some (mapUrl i) -> rootUrl i = None ->
  strings.HasPrefix t "/" = true -> is_Ok (Parse t) ->
  resolve t (mapUrl i) (rootUrl i) = Ok t /\ canonical i t = Ok t.
Proof.
  intros [b Hb] Hroot Hslash [u Hu]. unfold canonical, resolve. rewrite Hslash, Hroot.
  split; [done|]. cbn [mbind result_bind]. unfold rebase. rewrite Hb, Hu, Hslash.
  done.
Qed.

Lemma HasPrefix_len (s p : string) :
  strings.HasPrefix s p = true -> strings.len p <= strings.len s.
Proof. intros [t ->]%HasPrefix_spec. rewrite len_app. lia. Qed.

Lemma len_0 (s : string) : strings.len s = 0 -> s = "".
Proof. by destruct s. Qed.

(** X14.  [rebase] panics in exactly one situation: the input parses and
    the root is a URL whose string form is empty (the zero URL).  Every
    string has the empty prefix, and the code then slices at
    [len(rootUrl.String())-1].  With any other root, or none, the slice is
    in bounds and [rebase] returns a string or an error. *)
Theorem rebase_panics_iff (inputUrl : string) (baseUrl rootUrl : option URL) (p : panic) :
  rebase inputUrl baseUrl rootUrl = Panic p <->
  p = SliceBoundsOutOfRange /\ is_Some baseUrl /\ is_Ok (Parse inputUrl)
  /\ exists root, rootUrl = Some root /\ String_ root = "".
Proof.
  unfold rebase, strings.slice_from. split.
  - destruct baseUrl as [base|]; [|done].
    destruct (Parse inputUrl) as [u|e|q] eqn:Hu; cbn [mbind result_bind];
      [|done|by apply Parse_no_panic in Hu].
    cbv zeta. intros H.
    assert (p = SliceBoundsOutOfRange /\ exists root, rootUrl = Some root /\ String_ root = "")
      as [-> Hroot]; [|split_and!; [done|by eexists|by eexists|done]].
    destruct rootUrl as [root|]; [|repeat case_match; simplify_eq].
    repeat case_match; simplify_eq; try lia.
    all: first
      [ split; [done|]; exists root; split; [done|]; by apply len_0
      | exfalso;
        match goal with
        | H : strings.HasPrefix _ _ = true |- _ => apply HasPrefix_len in H; lia
        end ].
  - intros (-> & [base ->] & [u Hu] & root & -> & Hroot). rewrite Hu, Hroot.
    cbn [mbind result_bind]. cbv zeta. cbn [strings.HasPrefix strings.len String.length].
    rewrite decide_True by done. by destruct (_ || _).
Qed.

(** X15.  [sameOrigin] is an equivalence on URLs: reflexive, symmetric
    and transitive. *)
Theorem sameOrigin_equivalence (a b c : URL) :
  sameOrigin a a = true
  /\ sameOrigin a b = sameOrigin b a
  /\ (sameOrigin a b = true -> sameOrigin b c = true -> sameOrigin a c = true).
Proof.
  unfold sameOrigin. split_and!.
  - by rewrite !bool_decide_eq_true_2.
  - f_equal; [f_equal|]; apply bool_decide_ext; split; congruence.
  - rewrite !andb_true_iff, !bool_decide_eq_true. intros [[? ?] ?] [[? ?] ?].
    split_and!; congruence.
Qed.

(** ** Writing and reading integrity values *)

(** The map of [TestResolveImportMap] is built from data without
    integrity values: its integrity table is [nil], and the first write
    into it panics. *)
Example SetIntegrityValue_on_test_map :
  (m ← test_map; SetIntegrityValue m "/test-map.js" "sha384-abc")
  = Panic AssignmentToNilMap.
Proof. vm_compute. reflexivity. Qed.

(** X10.  A hash written under a canonical target is read back.  On a
    receiver whose integrity table is [nil] (a map that [New] built from
    data without integrity values) [SetIntegrityValue] panics.  On any
    other receiver, when the target is its own rebased form (and does not
    start with [./]), [SetIntegrityValue] succeeds and [GetIntegrityValue]
    on the new map returns the hash. *)
Theorem SetIntegrityValue_then_Get (i : importMap) (target value : string) :
  rebase target (mapUrl i) (rootUrl i) = Ok target ->
  strings.HasPrefix target "./" = false ->
  if is_nil (integrity_ i)
  then SetIntegrityValue i target value = Panic AssignmentToNilMap
  else exists i', SetIntegrityValue i target value = Ok i'
                  /\ GetIntegrityValue i' target = Ok value.
Proof.
  intros Ht Hdot. unfold SetIntegrityValue.
  destruct (integrity_ i) as [|tbl]; cbn [is_nil assign mbind result_bind]; [done|].
  rewrite Ht. cbn [mbind result_bind entries in_place].
  rewrite decide_False by (intros H; by apply H). rewrite Hdot. cbn [andb].
  eexists. split; [done|]. unfold GetIntegrityValue.
  cbn [mapUrl rootUrl integrity integrity_ entries].
  rewrite Ht. cbn [mbind result_bind]. by rewrite lookup_insert_eq.
Qed.

(** X11.  A hash written under a target that is not canonical is not read
    back: [SetIntegrityValue] stores it under the target as written and
    deletes the entry under the rebased form [t], while
    [GetIntegrityValue] looks under [t] and under [t[2:]] only. *)
Theorem SetIntegrityValue_then_Get_not_found (i i' : importMap) (target value t : string) :
  rebase target (mapUrl i) (rootUrl i) = Ok t ->
  t <> target ->
  2 <= strings.len t ->
  strings.from 2 t <> target ->
  integrity i !! strings.from 2 t = None ->
  SetIntegrityValue i target value = Ok i' ->
  integrity i' !! target = Some value
  /\ GetIntegrityValue i' target = Err IntegrityNotFound.
Proof.
  intros Ht Hne Hlen Hne2 Hmiss Hset. unfold SetIntegrityValue in Hset.
  unfold integrity in Hmiss.
  destruct (integrity_ i) as [|tbl0]; cbn [assign mbind result_bind] in Hset; [done|].
  cbn [entries] in Hmiss.
  rewrite Ht in Hset. cbn [mbind result_bind entries in_place] in Hset.
  rewrite decide_True in Hset by done.
  assert (forall (tbl : gmap string string) k,
            (k = t -> tbl !! t = None) ->
            (if strings.HasPrefix t "./"
                && negb (bool_decide (target = strings.from 2 t))
                && bool_decide (is_Some (tbl !! strings.from 2 t))
             then delete t tbl else tbl) !! k = tbl !! k) as Hsecond.
  { intros tbl k Hk.
    destruct (strings.HasPrefix t "./" && negb (bool_decide (target = strings.from 2 t))
              && bool_decide (is_Some (tbl !! strings.from 2 t))); [|done].
    destruct (decide (k = t)) as [->|Hkt].
    - by rewrite lookup_delete_eq, Hk.
    - by rewrite lookup_delete_ne. }
  injection Hset as <-. cbn [integrity integrity_ entries].
  split.
  - rewrite Hsecond by done. rewrite lookup_delete_ne by done. apply lookup_insert_eq.
  - unfold GetIntegrityValue, strings.slice_from.
    cbn [mapUrl rootUrl integrity integrity_ entries].
    rewrite Ht. cbn [mbind result_bind].
    rewrite Hsecond by (intros _; apply lookup_delete_eq). rewrite lookup_delete_eq.
    rewrite decide_True by done. cbn [mbind result_bind].
    rewrite Hsecond by (intros _; apply lookup_delete_eq).
    destruct (decide (strings.from 2 t = t)) as [Heq|Hneq].
    + rewrite Heq, lookup_delete_eq. done.
    + rewrite lookup_delete_ne by done.
      rewrite lookup_insert_ne by done. by rewrite Hmiss.
Qed.

(** ** The further properties at concrete maps *)

Lemma no_scope_to_skip {R : RangeOrder} (i : importMap) (specifier : string) :
  forall m, m ∈ [] ->
    getMapMatch specifier (default ∅ (scopes i !! First m) : gmap string string) = "".
Proof. intros m Hm. by apply not_elem_of_nil in Hm. Qed.

(** In [nested_map] the scopes [https://another.com/] and
    [https://another.com/lib/] both cover the parent and both map [lib];
    the shorter one is tried first and decides. *)
Lemma ResolveWithParent_scope_order_witness :
  let i := nested_map in
  let parent := parsed "https://another.com/lib/x.js" in
  let parentUrlRaw := "https://another.com/lib/x.js" in
  let short := mkTuple "https://another.com/" "https://another.com/" in
  let long := mkTuple "https://another.com/lib/" "https://another.com/lib/" in
  RangeOrderOk key_order
  /\ (forall k, is_Some (scopes i !! k) -> is_Ok (resolve k (mapUrl i) (rootUrl i)))
  /\ resolve (String_ parent) (mapUrl i) (rootUrl i) = Ok parentUrlRaw
  /\ getScopeMatches (R := key_order) parentUrlRaw (scopes i) (mapUrl i) (rootUrl i)
     = Ok [short; long]
  /\ ResolveWithParent (R := key_order) i "lib" (Some parent) = Ok "https://site.com/short.js"
  /\ exists ms,
       getScopeMatches (R := key_order) parentUrlRaw (scopes i) (mapUrl i) (rootUrl i) = Ok ms
    /\ (forall s u, mkTuple s u ∈ ms <->
          is_Some (scopes i !! s)
          /\ resolve s (mapUrl i) (rootUrl i) = Ok u
          /\ (u = parentUrlRaw
              \/ (strings.HasSuffix u "/" = true
                  /\ strings.HasPrefix parentUrlRaw u = true)))
    /\ NoDup (First <$> ms)
    /\ StronglySorted by_length ms
    /\ (forall (specifier c0 : string) (Cand : string -> Prop)
               (ms1 ms2 : list scopeMatchTuple) (m : scopeMatchTuple)
               (tbl : gmap string string),
          absoluteForm parent specifier = Ok c0 ->
          Cand c0 ->
          (isPlain specifier = false ->
           forall c, Cand c -> forall root, root = rootUrl i \/ root = None ->
           exists c', rebase c (mapUrl i) root = Ok c' /\ Cand c') ->
          ms = (ms1 ++ m :: ms2)%list ->
          (forall c m', Cand c -> m' ∈ ms1 ->
             getMapMatch (R := key_order) c
               (default ∅ (scopes i !! First m') : gmap string string) = "") ->
          scopes i !! First m = Some tbl ->
          exists c, Cand c
            /\ (isPlain specifier = true \/ ms1 = [] -> c = c0)
            /\ (getMapMatch (R := key_order) c tbl <> "" ->
                ResolveWithParent (R := key_order) i specifier (Some parent)
                = resolveMatch i tbl c (getMapMatch (R := key_order) c tbl))).
Proof.
  intros i parent parentUrlRaw short long.
  assert (forall k, is_Some (scopes i !! k) -> is_Ok (resolve k (mapUrl i) (rootUrl i)))
    as Hres.
  { intros k [v Hv]. unfold i, nested_map, site_map in Hv.
    cbn [scopes scopes_ entries] in Hv.
    destruct (decide (k = "https://another.com/")) as [->|?];
      [eexists; vm_compute; reflexivity|].
    rewrite lookup_insert_ne in Hv by done.
    destruct (decide (k = "https://another.com/lib/")) as [->|?];
      [eexists; vm_compute; reflexivity|].
    rewrite lookup_singleton_ne in Hv by done. discriminate. }
  assert (resolve (String_ parent) (mapUrl i) (rootUrl i) = Ok parentUrlRaw) as Hparent
    by (vm_compute; reflexivity).
  split; [exact key_order_ok|]. split; [exact Hres|]. split; [exact Hparent|].
  split; [vm_compute; reflexivity|]. split; [vm_compute; reflexivity|].
  exact (ResolveWithParent_scope_order key_order_ok i parent parentUrlRaw Hres Hparent).
Defined.

Lemma ResolveWithParent_first_scope_witness :
  let parent := parsed "https://another.com/lib/x.js" in
  let short := mkTuple "https://another.com/" "https://another.com/" in
  let long := mkTuple "https://another.com/lib/" "https://another.com/lib/" in
  isPlain "lib" = true
  /\ resolve (String_ parent) (mapUrl nested_map) (rootUrl nested_map)
     = Ok "https://another.com/lib/x.js"
  /\ getScopeMatches (R := key_order) "https://another.com/lib/x.js" (scopes nested_map)
       (mapUrl nested_map) (rootUrl nested_map) = Ok ([] ++ short :: [long])%list
  /\ scopes nested_map !! First short = Some {[ "lib" := "/short.js" ]}
  /\ ResolveWithParent (R := key_order) nested_map "lib" (Some parent)
     = resolve "/short.js" (mapUrl nested_map) (rootUrl nested_map)
  /\ resolve "/short.js" (mapUrl nested_map) (rootUrl nested_map)
     = Ok "https://site.com/short.js".
Proof.
  intros parent short long.
  assert ("lib" <> "") as H0 by discriminate.
  assert (isPlain "lib" = true) as H1 by (vm_compute; reflexivity).
  assert (resolve (String_ parent) (mapUrl nested_map) (rootUrl nested_map)
          = Ok "https://another.com/lib/x.js") as H2 by (vm_compute; reflexivity).
  assert (getScopeMatches (R := key_order) "https://another.com/lib/x.js" (scopes nested_map)
            (mapUrl nested_map) (rootUrl nested_map) = Ok ([] ++ short :: [long])%list)
    as H3 by (vm_compute; reflexivity).
  assert (scopes nested_map !! First short = Some {[ "lib" := "/short.js" ]})
    as H4 by (vm_compute; reflexivity).
  assert (({[ "lib" := "/short.js" ]} : gmap string string) !! "lib" = Some "/short.js")
    as H5 by (vm_compute; reflexivity).
  assert (resolve "/short.js" (mapUrl nested_map) (rootUrl nested_map)
          = Ok "https://site.com/short.js") as H6 by (vm_compute; reflexivity).
  split; [exact H1|]. split; [exact H2|]. split; [exact H3|]. split; [exact H4|].
  split; [|exact H6].
  exact (ResolveWithParent_first_scope (R := key_order) nested_map "lib" parent _ [] [long]
           short _ "/short.js" H1 H2 H3 (no_scope_to_skip _ _) H4 H5 H0).
Defined.

Lemma ResolveWithParent_panics_on_bare_prefix_witness :
  let parent := parsed "https://site.com/app.js" in
  RangeOrderOk key_order
  /\ isPlain "pkg" = true
  /\ resolve (String_ parent) (mapUrl nested_map) (rootUrl nested_map)
     = Ok "https://site.com/app.js"
  /\ getScopeMatches (R := key_order) "https://site.com/app.js" (scopes nested_map)
       (mapUrl nested_map) (rootUrl nested_map) = Ok []
  /\ imports nested_map !! "pkg" = None
  /\ is_Some (imports nested_map !! ("pkg" +:+ "/"))
  /\ ResolveWithParent (R := key_order) nested_map "pkg" (Some parent)
     = Panic SliceBoundsOutOfRange.
Proof.
  intros parent.
  assert (isPlain "pkg" = true) as H1 by (vm_compute; reflexivity).
  assert (resolve (String_ parent) (mapUrl nested_map) (rootUrl nested_map)
          = Ok "https://site.com/app.js") as H2 by (vm_compute; reflexivity).
  assert (getScopeMatches (R := key_order) "https://site.com/app.js" (scopes nested_map)
            (mapUrl nested_map) (rootUrl nested_map) = Ok []) as H3 by (vm_compute; reflexivity).
  assert (imports nested_map !! "pkg" = None) as H4 by (vm_compute; reflexivity).
  assert (is_Some (imports nested_map !! ("pkg" +:+ "/"))) as H5
    by (exists "/pkg/"; vm_compute; reflexivity).
  split; [exact key_order_ok|]. split; [exact H1|]. split; [exact H2|]. split; [exact H3|].
  split; [exact H4|]. split; [exact H5|].
  exact (ResolveWithParent_panics_on_bare_prefix key_order_ok nested_map "pkg" parent _ []
           H1 H2 H3 (no_scope_to_skip _ _) H4 H5).
Defined.

Lemma Set_then_ResolveWithParent_witness :
  let parent := parsed "https://site.com/app.js" in
  isPlain "react" = true
  /\ "react" <> ""
  /\ resolve (String_ parent) (mapUrl nested_map) (rootUrl nested_map)
     = Ok "https://site.com/app.js"
  /\ getScopeMatches (R := key_order) "https://site.com/app.js" (scopes nested_map)
       (mapUrl nested_map) (rootUrl nested_map) = Ok []
  /\ is_nil (imports_ nested_map) = false
  /\ (exists i', Set_ nested_map "react" "/react.js" = Ok i'
                 /\ ResolveWithParent (R := key_order) i' "react" (Some parent)
                    = resolve "/react.js" (mapUrl nested_map) (rootUrl nested_map))
  /\ resolve "/react.js" (mapUrl nested_map) (rootUrl nested_map)
     = Ok "https://site.com/react.js".
Proof.
  intros parent.
  assert ("react" <> "") as H0 by discriminate.
  assert (isPlain "react" = true) as H1 by (vm_compute; reflexivity).
  assert (resolve (String_ parent) (mapUrl nested_map) (rootUrl nested_map)
          = Ok "https://site.com/app.js") as H2 by (vm_compute; reflexivity).
  assert (getScopeMatches (R := key_order) "https://site.com/app.js" (scopes nested_map)
            (mapUrl nested_map) (rootUrl nested_map) = Ok []) as H3 by (vm_compute; reflexivity).
  assert (resolve "/react.js" (mapUrl nested_map) (rootUrl nested_map)
          = Ok "https://site.com/react.js") as H4 by (vm_compute; reflexivity).
  split; [exact H1|]. split; [exact H0|]. split; [exact H2|]. split; [exact H3|].
  split; [exact eq_refl|]. split; [|exact H4].
  exact (Set_then_ResolveWithParent (R := key_order) nested_map "react" "/react.js" parent _ []
           H1 H0 H2 H3 (no_scope_to_skip _ _)).
Defined.

Lemma SetWithParent_then_ResolveWithParent_witness :
  let i := site_map {[ "lib" := "/top.js" ]} ∅ ∅ in
  let parent := parsed "https://another.com/x.js" in
  RangeOrderOk key_order
  /\ scopes i = ∅
  /\ isPlain "lib" = true
  /\ "lib" <> ""
  /\ resolve (String_ parent) (mapUrl i) (rootUrl i) = Ok "https://another.com/x.js"
  /\ resolve "https://another.com/" (mapUrl i) (rootUrl i) = Ok "https://another.com/"
  /\ scopeMatches_keep "https://another.com/x.js"
       (mkTuple "https://another.com/" "https://another.com/") = true
  /\ is_nil (scopes_ i) = false
  /\ (exists i', SetWithParent i "lib" "/scoped.js" "https://another.com/" = Ok i'
                 /\ ResolveWithParent (R := key_order) i' "lib" (Some parent)
                    = resolve "/scoped.js" (mapUrl i) (rootUrl i))
  /\ resolve "/scoped.js" (mapUrl i) (rootUrl i) = Ok "https://site.com/scoped.js".
Proof.
  intros i parent.
  assert ("lib" <> "") as H0 by discriminate.
  assert (isPlain "lib" = true) as H1 by (vm_compute; reflexivity).
  assert (resolve (String_ parent) (mapUrl i) (rootUrl i) = Ok "https://another.com/x.js")
    as H2 by (vm_compute; reflexivity).
  assert (resolve "https://another.com/" (mapUrl i) (rootUrl i) = Ok "https://another.com/")
    as H3 by (vm_compute; reflexivity).
  assert (scopeMatches_keep "https://another.com/x.js"
            (mkTuple "https://another.com/" "https://another.com/") = true)
    as H4 by (vm_compute; reflexivity).
  assert (resolve "/scoped.js" (mapUrl i) (rootUrl i) = Ok "https://site.com/scoped.js")
    as H5 by (vm_compute; reflexivity).
  split; [exact key_order_ok|]. split; [exact eq_refl|]. split; [exact H1|].
  split; [exact H0|]. split; [exact H2|]. split; [exact H3|]. split; [exact H4|].
  split; [exact eq_refl|]. split; [|exact H5].
  exact (SetWithParent_then_ResolveWithParent key_order_ok i "lib" "/scoped.js"
           "https://another.com/" parent _ _ eq_refl H1 H0 H2 H3 H4).
Defined.

Lemma a_map_keys_plain : forall k, is_Some (imports a_map !! k) -> isPlain k = true.
Proof.
  intros k [v Hv]. unfold a_map in Hv. cbn [imports imports_ entries] in Hv.
  apply lookup_singleton_Some in Hv as [<- _]. vm_compute. reflexivity.
Qed.

Lemma a_map_targets_canonical :
  forall k t, imports a_map !! k = Some t -> canonical a_map t = Ok t.
Proof.
  intros k t Hv. unfold a_map in Hv. cbn [imports imports_ entries] in Hv.
  apply lookup_singleton_Some in Hv as [_ <-]. vm_compute. reflexivity.
Qed.

Lemma a_map_hashes_not_keys :
  forall k v, integrity a_map !! k = Some v -> integrity a_map !! v = None.
Proof.
  intros k v Hv. unfold a_map in Hv. cbn [integrity integrity_ entries] in Hv.
  apply lookup_singleton_Some in Hv as [_ <-]. vm_compute. reflexivity.
Qed.

Lemma a_map_Rebase : Rebase (R := key_order) a_map (Some (parsed "https://b.com/")) None
                     = Ok a_map_at_b.
Proof. vm_compute. reflexivity. Qed.

Lemma Rebase_blanks_integrity_witness :
  (forall k v, integrity a_map !! k = Some v -> integrity a_map !! v = None)
  /\ Rebase (R := key_order) a_map (Some (parsed "https://b.com/")) None = Ok a_map_at_b
  /\ integrity a_map_at_b = (fun _ => "") <$> integrity a_map
  /\ integrity a_map = {[ "/a.js" := "sha384-abc" ]}
  /\ integrity a_map_at_b = {[ "/a.js" := "" ]}.
Proof.
  split; [exact a_map_hashes_not_keys|]. split; [exact a_map_Rebase|].
  split; [|split; exact eq_refl].
  exact (Rebase_blanks_integrity key_order_ok a_map a_map_at_b _ _
           a_map_hashes_not_keys a_map_Rebase).
Defined.

Lemma Rebase_canonical_imports_witness :
  (forall k, is_Some (imports a_map !! k) -> isPlain k = true)
  /\ (forall k t, imports a_map !! k = Some t -> canonical a_map t = Ok t)
  /\ Rebase (R := key_order) a_map (Some (parsed "https://b.com/")) None = Ok a_map_at_b
  /\ imports a_map_at_b = imports a_map.
Proof.
  split; [exact a_map_keys_plain|]. split; [exact a_map_targets_canonical|].
  split; [exact a_map_Rebase|].
  exact (Rebase_canonical_imports key_order_ok a_map a_map_at_b _ _
           a_map_keys_plain a_map_targets_canonical a_map_Rebase).
Defined.

Lemma Rebase_root_witness :
  mapUrl a_map = Some (parsed "https://a.com/")
  /\ Rebase (R := key_order) a_map (Some (parsed "https://b.com/")) None = Ok a_map_at_b
  /\ (mapUrl a_map_at_b = Some (parsed "https://b.com/")
      /\ (is_Some (None : option URL) -> rootUrl a_map_at_b = None)
      /\ ((None : option URL) = None ->
          String_ (parsed "https://b.com/") <> String_ (parsed "https://a.com/") ->
          rootUrl a_map_at_b =
            if bool_decide (rootUrl a_map = None)
               || negb (bool_decide (Scheme (parsed "https://b.com/") = "https")
                        || bool_decide (Scheme (parsed "https://b.com/") = "http"))
            then None
            else Some (ResolveReference (parsed "https://b.com/") (with_path empty "/" ""))))
  /\ rootUrl a_map_at_b = Some (parsed "https://b.com/").
Proof.
  split; [exact eq_refl|]. split; [exact a_map_Rebase|]. split; [|exact eq_refl].
  exact (Rebase_root (R := key_order) a_map a_map_at_b _ _ None eq_refl a_map_Rebase).
Defined.

Lemma x_plain : forall (v : string) k, is_Some (({[ "x" := v ]} : gmap string string) !! k) ->
  isPlain k = true.
Proof.
  intros v k [w Hw]. apply lookup_singleton_Some in Hw as [<- _]. vm_compute. reflexivity.
Qed.

Lemma Extend_other_wins_witness :
  let i := site_map {[ "x" := "/mine.js" ]} ∅ ∅ in
  let other := mkImportMap {[ "x" := "/theirs.js" ]} ∅ ∅ None None in
  let i' := mkImportMap {[ "x" := "/theirs.js" ]} ∅ ∅ (mapUrl i) (mapUrl i) in
  RangeOrderOk key_order
  /\ (forall k', is_Some (imports i !! k') -> isPlain k' = true)
  /\ (forall k', is_Some (imports other !! k') -> isPlain k' = true)
  /\ Extend (R := key_order) i other false = Ok i'
  /\ imports other !! "x" = Some "/theirs.js"
  /\ exists t', canonical i "/theirs.js" = Ok t' /\ imports i' !! "x" = Some t'.
Proof.
  intros i other i'.
  assert (Extend (R := key_order) i other false = Ok i') as H by (vm_compute; reflexivity).
  split; [exact key_order_ok|]. split; [exact (x_plain _)|]. split; [exact (x_plain _)|].
  split; [exact H|]. split; [exact (lookup_singleton_eq _ _)|].
  exact (Extend_other_wins key_order_ok i other i' false "x" "/theirs.js"
           (x_plain _) (x_plain _) H (lookup_singleton_eq _ _)).
Defined.

Lemma canonical_rootless_witness :
  is_Some (mapUrl file_map) /\ rootUrl file_map = None
  /\ strings.HasPrefix "/lib/x.js?v=1" "/" = true
  /\ is_Ok (Parse "/lib/x.js?v=1")
  /\ resolve "/lib/x.js?v=1" (mapUrl file_map) (rootUrl file_map) = Ok "/lib/x.js?v=1"
  /\ canonical file_map "/lib/x.js?v=1" = Ok "/lib/x.js?v=1".
Proof.
  assert (is_Some (mapUrl file_map)) as H1 by (eexists; reflexivity).
  assert (is_Ok (Parse "/lib/x.js?v=1")) as H2 by (eexists; vm_compute; reflexivity).
  split; [exact H1|]. split; [exact eq_refl|]. split; [exact eq_refl|]. split; [exact H2|].
  exact (canonical_rootless file_map "/lib/x.js?v=1" H1 eq_refl eq_refl H2).
Defined.

Lemma rebase_panics_iff_witness :
  is_Some (Some (parsed "https://site.com/"))
  /\ is_Ok (Parse "lib/x.js")
  /\ String_ empty = ""
  /\ rebase "lib/x.js" (Some (parsed "https://site.com/")) (Some empty)
     = Panic SliceBoundsOutOfRange.
Proof.
  assert (is_Some (Some (parsed "https://site.com/"))) as H0 by (eexists; reflexivity).
  assert (is_Ok (Parse "lib/x.js")) as H1 by (eexists; vm_compute; reflexivity).
  assert (String_ empty = "") as H2 by (vm_compute; reflexivity).
  split; [exact H0|]. split; [exact H1|]. split; [exact H2|].
  exact (proj2 (rebase_panics_iff "lib/x.js" _ (Some empty) SliceBoundsOutOfRange)
           (conj eq_refl (conj H0 (conj H1 (ex_intro _ empty (conj eq_refl H2)))))).
Defined.

Lemma SetIntegrityValue_then_Get_witness :
  let i := site_map ∅ ∅ ∅ in
  rebase "/x.js" (mapUrl i) (rootUrl i) = Ok "/x.js"
  /\ strings.HasPrefix "/x.js" "./" = false
  /\ is_nil (integrity_ i) = false
  /\ exists i', SetIntegrityValue i "/x.js" "sha384-abc" = Ok i'
                /\ GetIntegrityValue i' "/x.js" = Ok "sha384-abc".
Proof.
  intros i.
  assert (rebase "/x.js" (mapUrl i) (rootUrl i) = Ok "/x.js") as H1
    by (vm_compute; reflexivity).
  split; [exact H1|]. split; [exact eq_refl|]. split; [exact eq_refl|].
  exact (SetIntegrityValue_then_Get i "/x.js" "sha384-abc" H1 eq_refl).
Defined.

Lemma SetIntegrityValue_then_Get_not_found_witness :
  let i := site_map ∅ ∅ ∅ in
  let i' := site_map ∅ ∅ {[ "https://site.com/x.js" := "sha384-abc" ]} in
  rebase "https://site.com/x.js" (mapUrl i) (rootUrl i) = Ok "/x.js"
  /\ "/x.js" <> "https://site.com/x.js"
  /\ 2 <= strings.len "/x.js"
  /\ strings.from 2 "/x.js" <> "https://site.com/x.js"
  /\ integrity i !! strings.from 2 "/x.js" = None
  /\ SetIntegrityValue i "https://site.com/x.js" "sha384-abc" = Ok i'
  /\ integrity i' !! "https://site.com/x.js" = Some "sha384-abc"
  /\ GetIntegrityValue i' "https://site.com/x.js" = Err IntegrityNotFound.
Proof.
  intros i i'.
  assert ("/x.js" <> "https://site.com/x.js") as H2 by discriminate.
  assert (2 <= strings.len "/x.js") as H3 by (vm_compute; lia).
  assert (strings.from 2 "/x.js" <> "https://site.com/x.js") as H4 by discriminate.
  assert (integrity i !! strings.from 2 "/x.js" = None) as H5 by (vm_compute; reflexivity).
  assert (rebase "https://site.com/x.js" (mapUrl i) (rootUrl i) = Ok "/x.js") as H1
    by (vm_compute; reflexivity).
  assert (SetIntegrityValue i "https://site.com/x.js" "sha384-abc" = Ok i') as H6
    by (vm_compute; reflexivity).
  split; [exact H1|]. split; [exact H2|]. split; [exact H3|]. split; [exact H4|].
  split; [exact H5|]. split; [exact H6|].
  exact (SetIntegrityValue_then_Get_not_found i i' _ _ _ H1 H2 H3 H4 H5 H6).
Defined.
